(** * The CSS selector builder of [src/05-objects-tasks.js]

    A shallow embedding of the class [CssSelectorBuilder] and of the facade
    object [cssSelectorBuilder], followed by the properties of the selector
    builder that the specification states.

    JavaScript objects live in a store and are handed around by reference;
    a method mutates [this] and an exception does not roll a mutation back.
    The embedding keeps all three: builders sit in a heap indexed by
    addresses, a method is a state transformer over the receiver, and the
    receiver's state is returned next to the completion, whether normal or
    abrupt.  Values and combinators are strings, as the specification has
    them. *)

From stdpp Require Import gmap strings list.

(** ** Values *)

(** The values that end up inside [this.selectors]: the object literals
    [{ type, value }] and [{ value }], the number returned by
    [Array.prototype.push], and the primitive string pushed by the instance
    method [combine].  A missing property reads as [undefined], which is
    [None] below. *)
Inductive jsval : Type :=
| Obj (type : option string) (value : string)
| Num (n : nat)
| Str (s : string).

#[global] Instance jsval_eq_dec : EqDecision jsval.
Proof. solve_decision. Defined.

(** [x.type] and [x.value], as read by the destructuring parameters
    [({ type })] and [({ value })].  Numbers and strings are coerced to
    wrapper objects that own neither property. *)
Definition get_type (x : jsval) : option string :=
  match x with
  | Obj t _ => t
  | Num _ | Str _ => None
  end.

Definition get_value (x : jsval) : option string :=
  match x with
  | Obj _ v => Some v
  | Num _ | Str _ => None
  end.

(** [ToBoolean], on the result of [Array.prototype.find]. *)
Definition truthy (r : option jsval) : bool :=
  match r with
  | None => false
  | Some (Obj _ _) => true
  | Some (Num n) => negb (n =? 0)%nat
  | Some (Str s) => negb (String.eqb s EmptyString)
  end.

(** [type === t]: strict equality of a possibly undefined property with a
    string literal. *)
Definition strict_eq (o : option string) (t : string) : bool :=
  match o with
  | Some s => String.eqb s t
  | None => false
  end.

(** [Array.prototype.includes] on an array of strings. *)
Definition includes (l : list string) (t : string) : bool :=
  existsb (String.eqb t) l.

(** [Array.prototype.join('')]: [undefined] elements contribute the empty
    string. *)
Fixpoint join_empty (l : list (option string)) : string :=
  match l with
  | [] => EmptyString
  | o :: l' => default EmptyString o +:+ join_empty l'
  end.

(** ** Exceptions and completions *)

Inductive exn : Type :=
| Error (message : string)
| TypeError (message : string).

Inductive completion (A : Type) : Type :=
| Normal (a : A)
| Throw (e : exn).
Arguments Normal {A} a.
Arguments Throw {A} e.

(** The two messages the class throws, under the names the specification
    gives to the two failures. *)
Definition DuplicateSingletonError : exn :=
  Error "Element, id and pseudo-element should not occur more then one time inside the selector".

Definition OrderViolationError : exn :=
  Error "Selector parts should be arranged in the following order: element, id, class, attribute, pseudo-class, pseudo-element".

(** Reading [.includes] off [undefined]. *)
Definition UndefinedAccess : exn :=
  TypeError "Cannot read properties of undefined (reading 'includes')".

(** ** The class [CssSelectorBuilder] *)

(** The literal assigned to [this.avalableSelectorsMap] by the constructor.
    Every instance gets the same literal and nothing ever writes to it, so
    it is a constant here.  Its arrays are only read. *)
Definition avalableSelectorsMap : gmap string (list string) :=
  <["element" := ["element"; "id"; "class"; "attr"; "pseudoClass"; "pseudoElement"] ]>
  (<["id" := ["id"; "class"; "attr"; "pseudoClass"; "pseudoElement"] ]>
  (<["class" := ["class"; "attr"; "pseudoClass"; "pseudoElement"] ]>
  (<["attr" := ["attr"; "pseudoClass"; "pseudoElement"] ]>
  (<["pseudoClass" := ["pseudoClass"; "pseudoElement"] ]>
  (<["pseudoElement" := nil]> ∅))))).

(** Property keys are strings: an [undefined] key is the string
    ["undefined"]. *)
Definition property_key (o : option string) : string :=
  match o with
  | Some s => s
  | None => "undefined"
  end.

(** The mutable fields of an instance.  [avalableSelectors] is [None] when
    the field holds [undefined]. *)
Record builder : Type := mkBuilder {
  selectors : list jsval;
  avalableSelectors : option (list string);
}.

#[global] Instance builder_eq_dec : EqDecision builder.
Proof. solve_decision. Defined.

(** A method body: it runs against the receiver and leaves the receiver in
    the state reached when it completed. *)
Definition M (A : Type) : Type := builder → completion A * builder.

#[global] Instance M_ret : MRet M := λ A a this, (Normal a, this).

#[global] Instance M_bind : MBind M := λ A B k m this,
  match m this with
  | (Normal a, this') => k a this'
  | (Throw e, this') => (Throw e, this')
  end.

Definition throw {A} (e : exn) : M A := λ this, (Throw e, this).

(** [this.selectors.find(({ type }) => type === t)] *)
Definition selectors_find_type (t : string) : M (option jsval) :=
  λ this,
    (Normal (List.find (λ x, strict_eq (get_type x) t) (selectors this)), this).

(** [this.avalableSelectors.includes(t)] *)
Definition avalableSelectors_includes (t : string) : M bool :=
  λ this,
    match avalableSelectors this with
    | Some l => (Normal (includes l t), this)
    | None => (Throw UndefinedAccess, this)
    end.

(** [this.avalableSelectors = l] *)
Definition set_avalableSelectors (l : option (list string)) : M unit :=
  λ this, (Normal (), mkBuilder (selectors this) l).

(** [this.selectors.push(x)], whose value is the new length. *)
Definition selectors_push (x : jsval) : M nat :=
  λ this,
    let l := selectors this ++ [x] in
    (Normal (length l), mkBuilder l (avalableSelectors this)).

Module CssSelectorBuilder.

Definition constructor (selector : jsval) : builder :=
  {| selectors := [selector];
     avalableSelectors := avalableSelectorsMap !! property_key (get_type selector) |}.

Definition element (value : string) : M unit :=
  isOccur ← selectors_find_type "element";
  if truthy isOccur then throw DuplicateSingletonError else
  inc ← avalableSelectors_includes "element";
  if negb inc then throw OrderViolationError else
  selectors_push (Obj (Some "element") value);;
  mret ().

Definition id (value : string) : M unit :=
  isOccur ← selectors_find_type "id";
  if truthy isOccur then throw DuplicateSingletonError else
  inc ← avalableSelectors_includes "id";
  if negb inc then throw OrderViolationError else
  set_avalableSelectors (avalableSelectorsMap !! "id");;
  selectors_push (Obj (Some "id") ("#" +:+ value));;
  mret ().

Definition class (value : string) : M unit :=
  inc ← avalableSelectors_includes "class";
  if negb inc then throw OrderViolationError else
  set_avalableSelectors (avalableSelectorsMap !! "class");;
  selectors_push (Obj (Some "class") ("." +:+ value));;
  mret ().

Definition attr (value : string) : M unit :=
  inc ← avalableSelectors_includes "attr";
  if negb inc then throw OrderViolationError else
  set_avalableSelectors (avalableSelectorsMap !! "attr");;
  selectors_push (Obj (Some "attr") ("[" +:+ value +:+ "]"));;
  mret ().

(** The argument of the outer [push] is the value of the inner one: the
    fragment goes in first, the new length after it. *)
Definition pseudoClass (value : string) : M unit :=
  inc ← avalableSelectors_includes "pseudoClass";
  if negb inc then throw OrderViolationError else
  set_avalableSelectors (avalableSelectorsMap !! "pseudoClass");;
  n ← selectors_push (Obj (Some "pseudoClass") (":" +:+ value));
  selectors_push (Num n);;
  mret ().

Definition pseudoElement (value : string) : M unit :=
  isOccur ← selectors_find_type "pseudoElement";
  if truthy isOccur then throw DuplicateSingletonError else
  inc ← avalableSelectors_includes "pseudoElement";
  if negb inc then throw OrderViolationError else
  set_avalableSelectors (Some []);;
  selectors_push (Obj (Some "pseudoElement") ("::" +:+ value));;
  mret ().

(** The instance method [combine]; its operands are taken at type string,
    so that [selector1 + combinator + selector2] is their concatenation. *)
Definition combine (selector1 combinator selector2 : string) : M unit :=
  selectors_push (Str (selector1 +:+ combinator +:+ selector2));;
  mret ().

(** [this.selectors.map(({ value }) => value).join('')]; it neither
    writes to the receiver nor throws on the values above. *)
Definition stringify (this : builder) : string :=
  join_empty (map get_value (selectors this)).

End CssSelectorBuilder.

(** The six fragment methods, as a caller selects them by name. *)
Inductive method : Type :=
| MElement | MId | MClass | MAttr | MPseudoClass | MPseudoElement.

#[global] Instance method_eq_dec : EqDecision method.
Proof. solve_decision. Defined.

Definition call (m : method) (value : string) : M unit :=
  match m with
  | MElement => CssSelectorBuilder.element value
  | MId => CssSelectorBuilder.id value
  | MClass => CssSelectorBuilder.class value
  | MAttr => CssSelectorBuilder.attr value
  | MPseudoClass => CssSelectorBuilder.pseudoClass value
  | MPseudoElement => CssSelectorBuilder.pseudoElement value
  end.

(** A method chain [this.m1(v1).m2(v2)...]: every method returns [this],
    and the first exception ends the chain. *)
Fixpoint chain (calls : list (method * string)) : M unit :=
  match calls with
  | [] => mret ()
  | (m, value) :: rest => call m value;; chain rest
  end.

(** The same calls made one by one by a caller that catches whatever a call
    throws and goes on with the next one. *)
Fixpoint attempt_all (calls : list (method * string)) (this : builder) : builder :=
  match calls with
  | [] => this
  | (m, value) :: rest => attempt_all rest (snd (call m value this))
  end.

(** ** The store *)

(** Builders are objects: they are created by [new], named by a reference
    and mutated in place.  A reference is an index into the store.  The
    array [this.selectors] is created by the constructor and never leaves
    its builder, so it is kept inside the builder's record. *)
Abbreviation addr := nat (only parsing).
Abbreviation heap := (list builder) (only parsing).

(** [new CssSelectorBuilder(selector)] *)
Definition new (selector : jsval) (h : heap) : addr * heap :=
  (length h, h ++ [CssSelectorBuilder.constructor selector]).

(** A method call [a.m(...)]: the body runs on the object at [a], and the
    store keeps what the body left there.  [None] stands for a reference to
    no object, which a program cannot make. *)
Definition invoke {A} (a : addr) (m : M A) (h : heap) : option (completion A * heap) :=
  this ← h !! a;
  Some (fst (m this), <[a := snd (m this)]> h).

(** [a.stringify()] *)
Definition stringify_at (a : addr) (h : heap) : option string :=
  CssSelectorBuilder.stringify <$> h !! a.

(** ** The facade [cssSelectorBuilder] *)

Module Facade.

Definition element (value : string) : heap → addr * heap :=
  new (Obj (Some "element") value).

Definition id (value : string) : heap → addr * heap :=
  new (Obj (Some "id") ("#" +:+ value)).

Definition class (value : string) : heap → addr * heap :=
  new (Obj (Some "class") ("." +:+ value)).

Definition attr (value : string) : heap → addr * heap :=
  new (Obj (Some "attr") ("[" +:+ value +:+ "]")).

Definition pseudoClass (value : string) : heap → addr * heap :=
  new (Obj (Some "pseudoClass") (":" +:+ value)).

Definition pseudoElement (value : string) : heap → addr * heap :=
  new (Obj (Some "pseudoElement") ("::" +:+ value)).

(** Both operands are stringified before the new builder is made, and
    only the resulting string goes into it. *)
Definition combine (selector1 : addr) (combinator : string) (selector2 : addr)
    (h : heap) : option (addr * heap) :=
  s1 ← stringify_at selector1 h;
  s2 ← stringify_at selector2 h;
  Some (new (Obj None (s1 +:+ " " +:+ combinator +:+ " " +:+ s2)) h).

End Facade.

(** An entry point of the facade: a function of one value, or of two
    builders and a combinator. *)
Inductive entry_point : Type :=
| Unary (f : string → heap → addr * heap)
| Ternary (f : addr → string → addr → heap → option (addr * heap)).

(** The object literal, as a map from property names to functions. *)
Definition cssSelectorBuilder : gmap string entry_point :=
  <["element" := Unary Facade.element]>
  (<["id" := Unary Facade.id]>
  (<["class" := Unary Facade.class]>
  (<["attr" := Unary Facade.attr]>
  (<["pseudoClass" := Unary Facade.pseudoClass]>
  (<["pseudoElement" := Unary Facade.pseudoElement]>
  (<["combine" := Ternary Facade.combine]> ∅)))))).

(** The facade function that goes with a fragment method. *)
Definition factory (m : method) : string → heap → addr * heap :=
  match m with
  | MElement => Facade.element
  | MId => Facade.id
  | MClass => Facade.class
  | MAttr => Facade.attr
  | MPseudoClass => Facade.pseudoClass
  | MPseudoElement => Facade.pseudoElement
  end.

(** The double quote character, for selectors that contain one. *)
Definition dquote : string := String (Ascii.ascii_of_nat 34) EmptyString.

(** ** Programs over the public interface *)

(** What a caller can do to the store: make a builder with a fragment
    factory, combine two builders, call a fragment method on a builder, or
    call the instance method [combine] on it.  [stringify()] writes nothing
    and is left out. *)
Inductive action : Type :=
| New (m : method) (value : string)
| Combine (selector1 : addr) (combinator : string) (selector2 : addr)
| Call (a : addr) (m : method) (value : string)
| CallCombine (a : addr) (selector1 combinator selector2 : string).

Definition perform (act : action) (h : heap) : option (completion unit * heap) :=
  match act with
  | New m value => Some (Normal (), snd (factory m value h))
  | Combine selector1 combinator selector2 =>
      r ← Facade.combine selector1 combinator selector2 h;
      Some (Normal (), snd r)
  | Call a m value => invoke a (call m value) h
  | CallCombine a selector1 combinator selector2 =>
      invoke a (CssSelectorBuilder.combine selector1 combinator selector2) h
  end.

(** The stores a program reaches from the empty one when no action of it
    throws. *)
Inductive reachable : heap → Prop :=
| reachable_empty : reachable []
| reachable_step act (h h' : heap) :
    reachable h → perform act h = Some (Normal (), h') → reachable h'.

(** Fragment calls made one after the other on the builders named, by a
    caller that catches what they throw. *)
Fixpoint attempt_each (calls : list (addr * (method * string))) (h : heap) : option heap :=
  match calls with
  | [] => Some h
  | (a, (m, value)) :: rest =>
      r ← invoke a (call m value) h;
      attempt_each rest (snd r)
  end.

(** ** Vocabulary of the specification *)

(** The [type] tag a method gives to its fragment. *)
Definition type_of (m : method) : string :=
  match m with
  | MElement => "element"
  | MId => "id"
  | MClass => "class"
  | MAttr => "attr"
  | MPseudoClass => "pseudoClass"
  | MPseudoElement => "pseudoElement"
  end.

(** The position of a kind in the stage order. *)
Definition stage (m : method) : nat :=
  match m with
  | MElement => 0
  | MId => 1
  | MClass => 2
  | MAttr => 3
  | MPseudoClass => 4
  | MPseudoElement => 5
  end.

Definition singleton (m : method) : bool :=
  match m with
  | MElement | MId | MPseudoElement => true
  | MClass | MAttr | MPseudoClass => false
  end.

(** The rendering table of the specification. *)
Definition rendered (m : method) (value : string) : string :=
  match m with
  | MElement => value
  | MId => "#" +:+ value
  | MClass => "." +:+ value
  | MAttr => "[" +:+ value +:+ "]"
  | MPseudoClass => ":" +:+ value
  | MPseudoElement => "::" +:+ value
  end.

(** Concatenation with no separator. *)
Fixpoint concat_texts (l : list string) : string :=
  match l with
  | [] => EmptyString
  | s :: l' => s +:+ concat_texts l'
  end.

(** A fragment is an entry of [this.selectors] that is an object; the
    numbers and strings that also get there are not. *)
Definition is_fragment (x : jsval) : bool :=
  match x with
  | Obj _ _ => true
  | Num _ | Str _ => false
  end.

Definition fragments (this : builder) : list jsval :=
  List.filter is_fragment (selectors this).

(** The builder holds a fragment of the kind of [m]. *)
Definition has_fragment (m : method) (this : builder) : Prop :=
  ∃ text, Obj (Some (type_of m)) text ∈ selectors this.

(** How many fragments of the kind of [m] the builder holds. *)
Definition count_kind (m : method) (this : builder) : nat :=
  length (List.filter (λ x, strict_eq (get_type x) (type_of m)) (selectors this)).

(** The stage pointer after a builder was seeded by the factory of [m0] and
    then accepted [calls]: the stage of the last call accepted, and the
    stage of the seed when there is none. *)
Definition stage_pointer (m0 : method) (calls : list (method * string)) : nat :=
  stage (List.last (map fst calls) m0).

(** ** Summaries used in the proofs *)

(** The stage order, as the first entry of the map lists it. *)
Definition stages : list string :=
  ["element"; "id"; "class"; "attr"; "pseudoClass"; "pseudoElement"].

(** The kinds allowed once a fragment of the kind of [m] is the last one:
    the stages from [m] on, and none after a pseudo-element. *)
Definition avalable_after (m : method) : list string :=
  match m with
  | MPseudoElement => []
  | _ => drop (stage m) stages
  end.

(** The result of the duplicate test of the singleton methods. *)
Definition holds (t : string) (l : list jsval) : bool :=
  truthy (List.find (λ x, strict_eq (get_type x) t) l).

(** What an accepted call appends to an array of length [n]. *)
Definition pushed (m : method) (value : string) (n : nat) : list jsval :=
  match m with
  | MPseudoClass => [Obj (Some (type_of m)) (rendered m value); Num (S n)]
  | _ => [Obj (Some (type_of m)) (rendered m value)]
  end.

(** What an accepted call leaves in [this.avalableSelectors]. *)
Definition next_avalable (m : method) (l : list string) : list string :=
  match m with
  | MElement => l
  | _ => avalable_after m
  end.

(** What the fields of a builder say when its last accepted fragment is of
    the kind of [m]: the allowed kinds are those of the map entry of [m],
    and an element fragment is there when [m] is the element stage. *)
Definition pointer_at (m : method) (this : builder) : Prop :=
  avalableSelectors this = Some (avalable_after m)
  ∧ (m = MElement → has_fragment MElement this).

(** The fragment that a call with this method and value adds. *)
Definition fragment_of (m : method) (value : string) : jsval :=
  Obj (Some (type_of m)) (rendered m value).

(** No singleton kind occurs twice. *)
Definition at_most_once (this : builder) : Prop :=
  count_kind MElement this ≤ 1
  ∧ count_kind MId this ≤ 1
  ∧ count_kind MPseudoElement this ≤ 1.

(** ** Call histories *)

(** Whether a call of [m] is accepted when the last fragment accepted is of
    the kind of [prev]: [m] is at a later stage, or it repeats a stage that
    may be repeated. *)
Definition valid_next (prev m : method) : bool :=
  (stage prev <? stage m) || (bool_decide (prev = m) && negb (singleton m)).

(** The kinds of a chain of calls, each accepted after the one before it,
    the first after [prev]. *)
Fixpoint valid_order (prev : method) (ms : list method) : bool :=
  match ms with
  | [] => true
  | m :: rest => valid_next prev m && valid_order m rest
  end.

(** The builder is what the factory call [m0(value0)] followed by the
    accepted calls [calls] makes: it allows what the last of them allows,
    and its fragments are theirs, in call order. *)
Definition built_by (m0 : method) (value0 : string) (calls : list (method * string))
    (this : builder) : Prop :=
  avalableSelectors this = Some (avalable_after (List.last (map fst calls) m0))
  ∧ fragments this = map (λ c, fragment_of c.1 c.2) ((m0, value0) :: calls)
  ∧ valid_order m0 (map fst calls) = true.

(** The builder is what the facade's [combine] makes: a single untyped
    object with the composite text, and no list of allowed kinds. *)
Definition composite (text : string) (this : builder) : Prop :=
  avalableSelectors this = None ∧ fragments this = [Obj None text].

(** Every builder is of one of the two kinds. *)
Definition shaped (this : builder) : Prop :=
  (∃ text, composite text this)
  ∨ (∃ m0 value0 calls, built_by m0 value0 calls this).

(** Two builders that differ at most in the entries of [selectors] that are
    not fragments. *)
Definition alike (this that : builder) : Prop :=
  fragments this = fragments that
  ∧ avalableSelectors this = avalableSelectors that.

(** ** Basic facts *)

Lemma avalableSelectorsMap_lookup m :
  avalableSelectorsMap !! type_of m = Some (avalable_after m).
Proof. destruct m; vm_compute; reflexivity. Qed.

Lemma avalableSelectorsMap_undefined :
  avalableSelectorsMap !! property_key None = None.
Proof. vm_compute. reflexivity. Qed.

(** Every method is a guard followed by an update. *)
Lemma call_eq m value this :
  call m value this =
    if singleton m && holds (type_of m) (selectors this)
    then (Throw DuplicateSingletonError, this)
    else match avalableSelectors this with
         | None => (Throw UndefinedAccess, this)
         | Some l =>
             if includes l (type_of m)
             then (Normal (),
                   mkBuilder (selectors this ++ pushed m value (length (selectors this)))
                             (Some (next_avalable m l)))
             else (Throw OrderViolationError, this)
         end.
Proof.
  destruct this as [sel [l|]];
    destruct m; cbn -[avalableSelectorsMap includes];
    unfold CssSelectorBuilder.element, CssSelectorBuilder.id,
      CssSelectorBuilder.class, CssSelectorBuilder.attr,
      CssSelectorBuilder.pseudoClass, CssSelectorBuilder.pseudoElement,
      holds, mbind, M_bind, selectors_find_type, avalableSelectors_includes;
    cbn -[avalableSelectorsMap includes];
    rewrite ?(avalableSelectorsMap_lookup MId), ?(avalableSelectorsMap_lookup MClass),
      ?(avalableSelectorsMap_lookup MAttr), ?(avalableSelectorsMap_lookup MPseudoClass);
    try destruct (truthy _); cbn -[includes]; try reflexivity;
    destruct (includes l _); cbn -[avalableSelectorsMap]; try reflexivity.
  all: rewrite ?(avalableSelectorsMap_lookup MPseudoClass), ?length_app, ?Nat.add_1_r,
         <- ?app_assoc; reflexivity.
Qed.

Section Strings.

Lemma append_assoc (s1 s2 s3 : string) : (s1 +:+ s2) +:+ s3 = s1 +:+ s2 +:+ s3.
Proof.
  induction s1 as [|c s1 IH]; [reflexivity|].
  change (String c ((s1 +:+ s2) +:+ s3) = String c (s1 +:+ s2 +:+ s3)).
  by rewrite IH.
Qed.

Lemma append_empty_r (s : string) : s +:+ EmptyString = s.
Proof.
  induction s as [|c s IH]; [reflexivity|].
  change (String c (s +:+ EmptyString) = String c s).
  by rewrite IH.
Qed.

Lemma join_empty_app (l1 l2 : list (option string)) :
  join_empty (l1 ++ l2) = join_empty l1 +:+ join_empty l2.
Proof.
  induction l1 as [|o l1 IH]; [reflexivity|].
  change (default EmptyString o +:+ join_empty (l1 ++ l2) =
          (default EmptyString o +:+ join_empty l1) +:+ join_empty l2).
  by rewrite IH, append_assoc.
Qed.

End Strings.

Lemma stringify_push sel av av' extra :
  CssSelectorBuilder.stringify (mkBuilder (sel ++ extra) av') =
  CssSelectorBuilder.stringify (mkBuilder sel av) +:+ join_empty (map get_value extra).
Proof.
  unfold CssSelectorBuilder.stringify. cbn.
  by rewrite map_app, join_empty_app.
Qed.

(** The number that [pseudoClass] pushes after its fragment has no [value]:
    an accepted call adds the rendered text and nothing else. *)
Lemma join_pushed m value n :
  join_empty (map get_value (pushed m value n)) = rendered m value.
Proof. destruct m; cbn; by rewrite ?append_empty_r. Qed.

Lemma fragments_pushed m value n :
  List.filter is_fragment (pushed m value n) = [Obj (Some (type_of m)) (rendered m value)].
Proof. by destruct m. Qed.

(** The duplicate test answers whether a fragment of that kind is there. *)
Lemma holds_true t l : holds t l = true ↔ ∃ text, Obj (Some t) text ∈ l.
Proof.
  unfold holds. split.
  - destruct (find _ l) as [x|] eqn:Hf; [|discriminate].
    intros _. apply find_some in Hf as [Hin Hx].
    destruct x as [[s|] text| |]; try discriminate.
    apply String.eqb_eq in Hx as ->.
    exists text. by apply list_elem_of_In.
  - intros [text Hin%list_elem_of_In].
    destruct (find _ l) as [x|] eqn:Hf.
    + apply find_some in Hf as [_ Hx].
      by destruct x as [[s|] ?| |].
    + apply (find_none _ _ Hf) in Hin. cbn in Hin.
      by rewrite String.eqb_refl in Hin.
Qed.

Lemma holds_has_fragment m this :
  holds (type_of m) (selectors this) = true ↔ has_fragment m this.
Proof. apply holds_true. Qed.

(** A kind is allowed after [m] exactly when it is not before [m] in the
    stage order, and nothing is allowed after a pseudo-element. *)
Lemma includes_avalable_after m m' :
  includes (avalable_after m) (type_of m') =
  bool_decide (stage m ≤ stage m' ∧ m ≠ MPseudoElement).
Proof. destruct m, m'; vm_compute; reflexivity. Qed.

Lemma includes_stage_lt m m' :
  stage m' < stage m → includes (avalable_after m) (type_of m') = false.
Proof.
  intros Hlt. rewrite includes_avalable_after.
  apply bool_decide_eq_false. intros [Hle _]. lia.
Qed.

(** The outcomes of a call, one by one. *)
Lemma call_duplicate m value this :
  singleton m = true → has_fragment m this →
  call m value this = (Throw DuplicateSingletonError, this).
Proof.
  intros Hs Hf%holds_has_fragment. by rewrite call_eq, Hs, Hf.
Qed.

Lemma call_throws_unchanged m value this e :
  fst (call m value this) = Throw e → snd (call m value this) = this.
Proof.
  rewrite call_eq.
  destruct (singleton m && holds _ _); [done|].
  destruct (avalableSelectors this) as [l|]; [|done].
  by destruct (includes l _).
Qed.

Lemma call_normal m value this :
  fst (call m value this) = Normal () →
  ∃ l, avalableSelectors this = Some l ∧
       includes l (type_of m) = true ∧
       (singleton m = true → ¬ has_fragment m this) ∧
       snd (call m value this) =
         mkBuilder (selectors this ++ pushed m value (length (selectors this)))
                   (Some (next_avalable m l)).
Proof.
  rewrite call_eq.
  destruct (singleton m && holds _ _) eqn:Hd; [done|].
  destruct (avalableSelectors this) as [l|]; [|done].
  destruct (includes l _) eqn:Hi; [|done].
  intros _. exists l. repeat split; try done.
  intros Hs Hf%holds_has_fragment. by rewrite Hs, Hf in Hd.
Qed.

Lemma chain_cons m value rest this :
  chain ((m, value) :: rest) this =
    match fst (call m value this) with
    | Normal _ => chain rest (snd (call m value this))
    | Throw e => (Throw e, snd (call m value this))
    end.
Proof.
  cbn. unfold mbind, M_bind.
  by destruct (call m value this) as [[[]|e] this'].
Qed.

Lemma invoke_lookup {A} a (m : M A) (h : heap) this :
  h !! a = Some this →
  invoke a m h = Some (fst (m this), <[a := snd (m this)]> h).
Proof. intros Ha. unfold invoke. by rewrite Ha. Qed.

Lemma invoke_inv {A} a (m : M A) (h h' : heap) r :
  invoke a m h = Some (r, h') →
  ∃ this, h !! a = Some this ∧ r = fst (m this) ∧ h' = <[a := snd (m this)]> h.
Proof.
  unfold invoke. destruct (h !! a) as [this|] eqn:Ha; [|done].
  cbn. intros [= <- <-]. by exists this.
Qed.

Lemma new_lookup selector (h : heap) :
  snd (new selector h) !! fst (new selector h) = Some (CssSelectorBuilder.constructor selector).
Proof.
  unfold new. cbn. rewrite lookup_app_r by lia.
  by rewrite Nat.sub_diag.
Qed.

Lemma factory_eq m value :
  factory m value = new (Obj (Some (type_of m)) (rendered m value)).
Proof. by destruct m. Qed.

Lemma factory_fresh m value (h : heap) :
  fst (factory m value h) = length h.
Proof. by rewrite factory_eq. Qed.

Lemma factory_lookup m value (h : heap) :
  snd (factory m value h) !! fst (factory m value h) =
  Some (CssSelectorBuilder.constructor (Obj (Some (type_of m)) (rendered m value))).
Proof. rewrite factory_eq. apply new_lookup. Qed.

Lemma constructor_fragment m text :
  CssSelectorBuilder.constructor (Obj (Some (type_of m)) text) =
  mkBuilder [Obj (Some (type_of m)) text] (Some (avalable_after m)).
Proof.
  unfold CssSelectorBuilder.constructor. cbn -[avalableSelectorsMap].
  by rewrite avalableSelectorsMap_lookup.
Qed.

Lemma stringify_call m value this :
  fst (call m value this) = Normal () →
  CssSelectorBuilder.stringify (snd (call m value this)) =
  CssSelectorBuilder.stringify this +:+ rendered m value.
Proof.
  intros (l & _ & _ & _ & ->)%call_normal.
  destruct this as [sel av]. cbn [selectors].
  by rewrite (stringify_push sel av), join_pushed.
Qed.

Lemma stringify_chain calls this :
  fst (chain calls this) = Normal () →
  CssSelectorBuilder.stringify (snd (chain calls this)) =
  CssSelectorBuilder.stringify this +:+
    concat_texts (map (λ c, rendered c.1 c.2) calls).
Proof.
  revert this. induction calls as [|[m value] rest IH]; intros this.
  - intros _. cbn. by rewrite append_empty_r.
  - rewrite chain_cons.
    destruct (fst (call m value this)) as [[]|e] eqn:Hc; [|done].
    intros Hrest. rewrite (IH _ Hrest), (stringify_call _ _ _ Hc).
    cbn [map concat_texts fst snd]. by rewrite append_assoc.
Qed.

(** ** Failures *)

Lemma attempt_all_selectors_grow calls this x :
  x ∈ selectors this → x ∈ selectors (attempt_all calls this).
Proof.
  revert this. induction calls as [|[m value] rest IH]; intros this Hx; [done|].
  cbn [attempt_all]. apply IH.
  destruct (fst (call m value this)) as [[]|e] eqn:Hc.
  - apply call_normal in Hc as (l & _ & _ & _ & ->). cbn.
    apply elem_of_app. by left.
  - by rewrite (call_throws_unchanged _ _ _ _ Hc).
Qed.

Lemma attempt_all_has_fragment m calls this :
  has_fragment m this → has_fragment m (attempt_all calls this).
Proof. intros [text Hx]. exists text. by apply attempt_all_selectors_grow. Qed.

Lemma has_fragment_after_call m value this :
  fst (call m value this) = Normal () → has_fragment m (snd (call m value this)).
Proof.
  intros (l & _ & _ & _ & ->)%call_normal.
  exists (rendered m value). cbn. apply elem_of_app. right.
  destruct m; cbn; set_solver.
Qed.

Lemma has_fragment_constructor m text :
  has_fragment m (CssSelectorBuilder.constructor (Obj (Some (type_of m)) text)).
Proof. exists text. cbn. set_solver. Qed.

(** C2.  A singleton method called on a builder that already holds a
    fragment of its kind throws the duplicate error, whatever the builder
    allows next: the duplicate test comes before the order test.  In
    particular a second [element] call throws it, whether the first was the
    factory call or an accepted method call, and whatever calls, accepted or
    not, were made on the builder in between. *)
Theorem duplicate_singleton_rejected :
  (∀ m value this,
     singleton m = true → has_fragment m this →
     call m value this = (Throw DuplicateSingletonError, this))
  ∧ (∀ (h : heap) value1 this between value2,
       snd (Facade.element value1 h) !! fst (Facade.element value1 h) = Some this →
       CssSelectorBuilder.element value2 (attempt_all between this)
         = (Throw DuplicateSingletonError, attempt_all between this))
  ∧ (∀ this value1 between value2,
       fst (CssSelectorBuilder.element value1 this) = Normal () →
       CssSelectorBuilder.element value2
           (attempt_all between (snd (CssSelectorBuilder.element value1 this)))
         = (Throw DuplicateSingletonError,
            attempt_all between (snd (CssSelectorBuilder.element value1 this)))).
Proof.
  split; [exact call_duplicate|split].
  - intros h value1 this between value2 Hthis.
    rewrite (factory_lookup MElement) in Hthis. injection Hthis as <-.
    apply (call_duplicate MElement); [done|].
    apply attempt_all_has_fragment, (has_fragment_constructor MElement).
  - intros this value1 between value2 Hok.
    apply (call_duplicate MElement); [done|].
    by apply attempt_all_has_fragment, (has_fragment_after_call MElement).
Qed.

Lemma duplicate_singleton_rejected_witness :
  let this := attempt_all [(MClass, "b"); (MId, "c")]
                (CssSelectorBuilder.constructor (Obj (Some "id") "#a")) in
  call MId "d" this = (Throw DuplicateSingletonError, this).
Proof.
  apply (proj1 duplicate_singleton_rejected MId "d").
  - reflexivity.
  - exists "#a". vm_compute. left.
Defined.

(** C6.  A fragment call that throws the duplicate error or the order error
    leaves the receiver as it was: the same [selectors], the same
    [avalableSelectors], and so the same [stringify()]. *)
Theorem failed_call_leaves_builder_unchanged m value this e :
  fst (call m value this) = Throw e →
  e = DuplicateSingletonError ∨ e = OrderViolationError →
  snd (call m value this) = this
  ∧ selectors (snd (call m value this)) = selectors this
  ∧ avalableSelectors (snd (call m value this)) = avalableSelectors this
  ∧ CssSelectorBuilder.stringify (snd (call m value this))
      = CssSelectorBuilder.stringify this.
Proof.
  intros Hthrow _.
  by rewrite (call_throws_unchanged _ _ _ _ Hthrow).
Qed.

Lemma failed_call_leaves_builder_unchanged_witness :
  let this := snd (CssSelectorBuilder.class "b"
                     (CssSelectorBuilder.constructor (Obj (Some "element") "a"))) in
  fst (call MId "c" this) = Throw OrderViolationError
  ∧ snd (call MId "c" this) = this
  ∧ CssSelectorBuilder.stringify (snd (call MId "c" this)) = "a.b".
Proof.
  cbv zeta. split; [vm_compute; reflexivity|].
  destruct (failed_call_leaves_builder_unchanged MId "c"
              (snd (CssSelectorBuilder.class "b"
                      (CssSelectorBuilder.constructor (Obj (Some "element") "a"))))
              OrderViolationError) as (H1 & _ & _ & H4).
  - vm_compute. reflexivity.
  - right. reflexivity.
  - split; [exact H1|]. rewrite H4. vm_compute. reflexivity.
Defined.

(** ** The stage pointer *)

Lemma pointer_at_constructor m text :
  pointer_at m (CssSelectorBuilder.constructor (Obj (Some (type_of m)) text)).
Proof.
  split.
  - by rewrite constructor_fragment.
  - intros ->. apply (has_fragment_constructor MElement).
Qed.

Lemma stage_inj m m' : stage m = stage m' → m = m'.
Proof. by destruct m, m'. Qed.

(** An accepted call moves the pointer to its own stage, which is not
    before the stage the pointer was at. *)
Lemma pointer_at_call m0 m value this :
  pointer_at m0 this →
  fst (call m value this) = Normal () →
  pointer_at m (snd (call m value this)) ∧ stage m0 ≤ stage m.
Proof.
  intros [Hav Hel] (l & Hl & Hinc & Hfresh & ->)%call_normal.
  rewrite Hav in Hl. injection Hl as <-.
  rewrite includes_avalable_after in Hinc.
  apply bool_decide_eq_true in Hinc as [Hle _].
  split; [|done]. split; cbn.
  - destruct m; try done.
    assert (m0 = MElement) as -> by (apply stage_inj; cbn in *; lia).
    destruct (Hfresh eq_refl (Hel eq_refl)).
  - intros ->.
    assert (m0 = MElement) as -> by (apply stage_inj; cbn in *; lia).
    destruct (Hfresh eq_refl (Hel eq_refl)).
Qed.

Lemma last_cons {A} (x d : A) l : List.last (x :: l) d = List.last l x.
Proof.
  revert x d. induction l as [|y l IH]; intros x d; [done|].
  transitivity (List.last (y :: l) d); [reflexivity|].
  by rewrite (IH y d), (IH y x).
Qed.

Lemma pointer_at_chain calls m0 this :
  pointer_at m0 this →
  fst (chain calls this) = Normal () →
  pointer_at (List.last (map fst calls) m0) (snd (chain calls this))
  ∧ stage m0 ≤ stage_pointer m0 calls.
Proof.
  unfold stage_pointer.
  revert m0 this. induction calls as [|[m value] rest IH]; intros m0 this Hp.
  - intros _. by split.
  - rewrite chain_cons.
    destruct (fst (call m value this)) as [[]|e] eqn:Hc; [|done].
    intros Hrest. cbn [map fst]. rewrite last_cons.
    destruct (pointer_at_call _ _ _ _ Hp Hc) as [Hp' Hle].
    destruct (IH _ _ Hp' Hrest) as [Hp'' Hle'].
    split; [done|lia].
Qed.

Lemma chain_app calls1 calls2 this :
  chain (calls1 ++ calls2) this =
    match fst (chain calls1 this) with
    | Normal _ => chain calls2 (snd (chain calls1 this))
    | Throw e => (Throw e, snd (chain calls1 this))
    end.
Proof.
  revert this. induction calls1 as [|[m value] rest IH]; intros this; [done|].
  rewrite <- app_comm_cons, !chain_cons.
  destruct (fst (call m value this)) as [[]|e]; [apply IH|done].
Qed.

(** One more accepted call does not move the pointer back. *)
Lemma stage_pointer_monotone calls m value m0 this :
  pointer_at m0 this →
  fst (chain (calls ++ [(m, value)]) this) = Normal () →
  stage_pointer m0 calls ≤ stage_pointer m0 (calls ++ [(m, value)]).
Proof.
  intros Hp. rewrite chain_app.
  destruct (fst (chain calls this)) as [[]|e] eqn:Hc; [|done].
  destruct (pointer_at_chain calls m0 this Hp Hc) as [Hp' _].
  rewrite chain_cons.
  destruct (fst (call m value (snd (chain calls this)))) as [[]|e] eqn:Hm; [|done].
  intros _. destruct (pointer_at_call _ _ _ _ Hp' Hm) as [_ Hle].
  unfold stage_pointer. rewrite map_app. cbn [map fst].
  by rewrite last_last.
Qed.

(** A call whose stage is before the pointer is never accepted. *)
Lemma call_before_pointer m0 m value this :
  pointer_at m0 this → stage m < stage m0 →
  call m value this =
    (Throw (if singleton m && holds (type_of m) (selectors this)
            then DuplicateSingletonError else OrderViolationError), this).
Proof.
  intros [Hav _] Hlt. rewrite call_eq, Hav, includes_stage_lt by done.
  by destruct (singleton m && holds _ _).
Qed.

Lemma lookup_insert_self (h : heap) a this :
  h !! a = Some this → <[a := this]> h = h.
Proof. apply list_insert_id. Qed.

Lemma invoke_call_throws a m value (h : heap) this e :
  h !! a = Some this →
  call m value this = (Throw e, this) →
  invoke a (call m value) h = Some (Throw e, h).
Proof.
  intros Ha Hc. rewrite (invoke_lookup _ _ _ _ Ha), Hc. cbn.
  by rewrite (lookup_insert_self _ _ _ Ha).
Qed.

Lemma factory_length m value (h : heap) :
  length (snd (factory m value h)) = S (length h).
Proof. rewrite factory_eq. unfold new. cbn. rewrite length_app. cbn. lia. Qed.

(** The builder a factory returned, after a chain of accepted calls. *)
Lemma invoke_chain_factory (h : heap) m0 value0 calls (h1 : heap) :
  invoke (fst (factory m0 value0 h)) (chain calls) (snd (factory m0 value0 h))
    = Some (Normal (), h1) →
  ∃ this, h1 !! fst (factory m0 value0 h) = Some this
          ∧ pointer_at (List.last (map fst calls) m0) this
          ∧ stage m0 ≤ stage_pointer m0 calls.
Proof.
  intros (seed & Hseed & Hok & ->)%invoke_inv.
  rewrite factory_lookup in Hseed. injection Hseed as <-.
  destruct (pointer_at_chain calls m0 _ (pointer_at_constructor m0 _) (eq_sym Hok))
    as [Hp Hle].
  eexists. split; [|by split].
  apply list_lookup_insert_eq. rewrite factory_fresh, factory_length. lia.
Qed.

(** C3, as the code has it.  Take a builder made by a factory and extended
    by a chain of accepted calls; its stage pointer is the stage of the last
    of them.  A call whose stage is strictly before the pointer throws, and
    leaves the store as it was: it throws the duplicate error when the
    method is a singleton one and the builder holds a fragment of its kind,
    and the order error otherwise.  An accepted call never moves the pointer
    back.  In particular [id] called after an accepted [class] throws the
    order error on a builder that holds no id fragment. *)
Theorem call_before_stage_pointer_rejected :
  (∀ (h : heap) m0 value0 calls (h1 : heap) m value,
     let a := fst (factory m0 value0 h) in
     invoke a (chain calls) (snd (factory m0 value0 h)) = Some (Normal (), h1) →
     stage m < stage_pointer m0 calls →
     ∃ this, h1 !! a = Some this
       ∧ (singleton m = true ∧ has_fragment m this →
            invoke a (call m value) h1 = Some (Throw DuplicateSingletonError, h1))
       ∧ (singleton m = false ∨ ¬ has_fragment m this →
            invoke a (call m value) h1 = Some (Throw OrderViolationError, h1)))
  ∧ (∀ (h : heap) m0 value0 calls m value (h1 : heap),
       invoke (fst (factory m0 value0 h)) (chain (calls ++ [(m, value)]))
         (snd (factory m0 value0 h)) = Some (Normal (), h1) →
       stage_pointer m0 calls ≤ stage_pointer m0 (calls ++ [(m, value)]))
  ∧ (∀ this value1 value2,
       fst (CssSelectorBuilder.class value1 this) = Normal () →
       ¬ has_fragment MId this →
       CssSelectorBuilder.id value2 (snd (CssSelectorBuilder.class value1 this))
         = (Throw OrderViolationError, snd (CssSelectorBuilder.class value1 this))).
Proof.
  split; [|split].
  - intros h m0 value0 calls h1 m value a Hchain Hlt.
    destruct (invoke_chain_factory _ _ _ _ _ Hchain) as (this & Hthis & Hp & _).
    exists this. split; [done|].
    pose proof (call_before_pointer _ m value this Hp Hlt) as Hc.
    split.
    + intros [Hs Hf%holds_has_fragment]. rewrite Hs, Hf in Hc.
      by apply (invoke_call_throws _ _ _ _ this).
    + intros Hno. apply (invoke_call_throws _ _ _ _ this); [done|].
      rewrite Hc. destruct Hno as [->|Hno]; [done|].
      destruct (holds _ _) eqn:Hf; [|by rewrite andb_false_r].
      by apply holds_has_fragment in Hf.
  - intros h m0 value0 calls m value h1 (seed & Hseed & Hok & _)%invoke_inv.
    rewrite factory_lookup in Hseed. injection Hseed as <-.
    exact (stage_pointer_monotone calls m value m0 _
             (pointer_at_constructor m0 (rendered m0 value0)) (eq_sym Hok)).
  - intros this value1 value2 Hok Hno.
    pose proof (call_normal MClass value1 this Hok) as (l & Hl & _ & _ & Hsnd).
    change (call MId value2 (snd (call MClass value1 this)) =
            (Throw OrderViolationError, snd (call MClass value1 this))).
    rewrite Hsnd, call_eq. cbn [selectors avalableSelectors next_avalable singleton].
    rewrite (includes_stage_lt MClass MId) by (cbn; lia).
    destruct (holds _ _) eqn:Hf; [|done].
    apply holds_true in Hf as [text Hin].
    apply elem_of_app in Hin as [Hin|Hin]; [destruct Hno; by exists text|].
    by apply list_elem_of_singleton in Hin.
Qed.

Lemma call_before_stage_pointer_rejected_witness :
  let a := fst (factory MElement "a" []) in
  ∃ h1 : heap,
    invoke a (chain [(MClass, "b")]) (snd (factory MElement "a" []))
      = Some (Normal (), h1)
    ∧ stage MId < stage_pointer MElement [(MClass, "b")]
    ∧ ∃ this, h1 !! a = Some this
        ∧ (singleton MId = true ∧ has_fragment MId this →
             invoke a (call MId "c") h1 = Some (Throw DuplicateSingletonError, h1))
        ∧ (singleton MId = false ∨ ¬ has_fragment MId this →
             invoke a (call MId "c") h1 = Some (Throw OrderViolationError, h1)).
Proof.
  eexists. split; [reflexivity|]. split; [cbn; lia|].
  apply (proj1 call_before_stage_pointer_rejected
           [] MElement "a" [(MClass, "b")] _ MId "c").
  - reflexivity.
  - cbn. lia.
Defined.

(** The claim fails as stated.  On [element('a').class('b')] the pointer is
    at the class stage and the element stage is before it, yet a second
    [element] call throws the duplicate error, not the order error; and on
    [id('x').class('y')] a second [id] call does the same. *)
Lemma order_error_before_pointer_counterexample :
  (let a := fst (Facade.element "a" []) in
   let r := invoke a (chain [(MClass, "b")]) (snd (Facade.element "a" [])) in
   fst <$> r = Some (Normal ())
   ∧ stage MElement < stage_pointer MElement [(MClass, "b")]
   ∧ (snd <$> r) ≫= (λ h1, fst <$> invoke a (call MElement "c") h1)
       = Some (Throw DuplicateSingletonError))
  ∧ (let a := fst (Facade.id "x" []) in
     let r := invoke a (chain [(MClass, "y")]) (snd (Facade.id "x" [])) in
     fst <$> r = Some (Normal ())
     ∧ stage MId < stage_pointer MId [(MClass, "y")]
     ∧ (snd <$> r) ≫= (λ h1, fst <$> invoke a (call MId "z") h1)
         = Some (Throw DuplicateSingletonError))
  ∧ DuplicateSingletonError ≠ OrderViolationError.
Proof.
  repeat split; try (vm_compute; reflexivity); try (cbn; lia).
  discriminate.
Qed.

(** ** Repeated calls *)

Lemma call_repeatable m value this :
  singleton m = false →
  avalableSelectors this = Some (avalable_after m) →
  call m value this =
    (Normal (),
     mkBuilder (selectors this ++ pushed m value (length (selectors this)))
               (Some (avalable_after m))).
Proof.
  intros Hs Hav. rewrite call_eq, Hs, Hav, includes_avalable_after. cbn.
  rewrite bool_decide_eq_true_2; [by destruct m|].
  split; [done|]. by intros ->.
Qed.

Lemma call_repeatable_after m value this :
  singleton m = false →
  fst (call m value this) = Normal () →
  avalableSelectors (snd (call m value this)) = Some (avalable_after m).
Proof.
  intros Hs (l & _ & _ & _ & ->)%call_normal. by destruct m.
Qed.

Lemma chain_repeat m values this :
  singleton m = false →
  avalableSelectors this = Some (avalable_after m) →
  fst (chain (map (pair m) values) this) = Normal ()
  ∧ fragments (snd (chain (map (pair m) values) this))
      = fragments this ++ map (fragment_of m) values
  ∧ (m ≠ MPseudoClass →
     selectors (snd (chain (map (pair m) values) this))
       = selectors this ++ map (fragment_of m) values).
Proof.
  intros Hs. revert this.
  induction values as [|value values IH]; intros this Hav.
  - cbn. by rewrite !app_nil_r.
  - cbn [map]. rewrite chain_cons, (call_repeatable _ _ _ Hs Hav).
    cbn [fst snd].
    destruct (IH (mkBuilder (selectors this ++ pushed m value (length (selectors this)))
                            (Some (avalable_after m))) eq_refl) as (Hok & Hfr & Hsel).
    split; [done|]. split.
    + rewrite Hfr. unfold fragments. cbn [selectors].
      by rewrite List.filter_app, fragments_pushed, <- app_assoc.
    + intros Hm. rewrite (Hsel Hm). cbn [selectors].
      rewrite <- app_assoc. by destruct m.
Qed.

(** What [selectors] holds after [a:hover:focus]: each [pseudoClass] call
    left its fragment and, after it, the length the array had then. *)
Example pseudoClass_pushes_length :
  selectors (snd (chain [(MPseudoClass, "hover"); (MPseudoClass, "focus")]
                    (CssSelectorBuilder.constructor (Obj (Some "element") "a"))))
  = [Obj (Some "element") "a";
     Obj (Some "pseudoClass") ":hover"; Num 2;
     Obj (Some "pseudoClass") ":focus"; Num 4].
Proof. vm_compute. reflexivity. Qed.

(** ** Singleton stages *)

Lemma count_kind_app m sel extra av av' :
  count_kind m (mkBuilder (sel ++ extra) av')
  = count_kind m (mkBuilder sel av)
    + length (List.filter (λ x, strict_eq (get_type x) (type_of m)) extra).
Proof. unfold count_kind. cbn. by rewrite List.filter_app, length_app. Qed.

Lemma count_pushed m m' value n :
  length (List.filter (λ x, strict_eq (get_type x) (type_of m')) (pushed m value n))
  = if decide (m = m') then 1 else 0.
Proof. by destruct m, m'. Qed.

(** No fragment of a kind that the duplicate test does not find. *)
Lemma count_kind_absent m this :
  ¬ has_fragment m this → count_kind m this = 0.
Proof.
  intros Hno. unfold count_kind.
  destruct (List.filter _ _) as [|x l] eqn:Hf; [done|].
  destruct Hno.
  assert (In x (List.filter (λ x, strict_eq (get_type x) (type_of m)) (selectors this)))
    as [Hin Hx]%List.filter_In by (rewrite Hf; by left).
  destruct x as [[t|] text| |]; try done.
  apply String.eqb_eq in Hx as ->.
  exists text. by apply list_elem_of_In.
Qed.

Lemma at_most_once_call m value this :
  at_most_once this →
  fst (call m value this) = Normal () →
  at_most_once (snd (call m value this)).
Proof.
  intros (He & Hi & Hp) (l & _ & _ & Hfresh & ->)%call_normal.
  destruct this as [sel av]. cbn [selectors] in *.
  unfold at_most_once.
  rewrite !(count_kind_app _ sel _ av), !count_pushed.
  destruct m; repeat case_decide; try discriminate; try lia.
  - rewrite (count_kind_absent MElement) by auto. lia.
  - rewrite (count_kind_absent MId (mkBuilder sel av)) by auto. lia.
  - rewrite (count_kind_absent MPseudoElement (mkBuilder sel av)) by auto. lia.
Qed.

Lemma combine_eq selector1 combinator selector2 this :
  CssSelectorBuilder.combine selector1 combinator selector2 this
  = (Normal (),
     mkBuilder (selectors this ++ [Str (selector1 +:+ combinator +:+ selector2)])
               (avalableSelectors this)).
Proof. reflexivity. Qed.

Lemma at_most_once_combine selector1 combinator selector2 this :
  at_most_once this →
  at_most_once (snd (CssSelectorBuilder.combine selector1 combinator selector2 this)).
Proof.
  intros (He & Hi & Hp). rewrite combine_eq.
  destruct this as [sel av]. cbn [snd selectors avalableSelectors].
  unfold at_most_once.
  rewrite !(count_kind_app _ sel _ av).
  change (length (List.filter _ [Str _])) with 0.
  lia.
Qed.

Lemma at_most_once_constructor selector :
  at_most_once (CssSelectorBuilder.constructor selector).
Proof.
  unfold at_most_once, count_kind. cbn.
  repeat split; destruct (strict_eq _ _); cbn; lia.
Qed.

Lemma at_most_once_store_insert (h : heap) a this :
  (∀ b that, h !! b = Some that → at_most_once that) →
  at_most_once this →
  ∀ b that, <[a := this]> h !! b = Some that → at_most_once that.
Proof.
  intros Hh Hthis b that.
  destruct (decide (a = b)) as [->|Hne].
  - destruct (decide (b < length h)).
    + rewrite list_lookup_insert_eq by done. by intros [= <-].
    + rewrite list_insert_ge by lia. apply Hh.
  - rewrite list_lookup_insert_ne by done. apply Hh.
Qed.

Lemma at_most_once_store_new (h : heap) selector :
  (∀ b that, h !! b = Some that → at_most_once that) →
  ∀ b that, snd (new selector h) !! b = Some that → at_most_once that.
Proof.
  intros Hh b that. unfold new. cbn.
  intros [Hb|[_ Hb]]%lookup_app_Some; [by eapply Hh|].
  apply list_lookup_singleton_Some in Hb as [_ <-].
  apply at_most_once_constructor.
Qed.

Lemma combine_inv selector1 combinator selector2 (h : heap) x (h' : heap) :
  Facade.combine selector1 combinator selector2 h = Some (x, h') →
  ∃ this1 this2,
    h !! selector1 = Some this1 ∧ h !! selector2 = Some this2
    ∧ x = length h
    ∧ h' = h ++ [CssSelectorBuilder.constructor
                   (Obj None (CssSelectorBuilder.stringify this1 +:+ " " +:+ combinator
                              +:+ " " +:+ CssSelectorBuilder.stringify this2))].
Proof.
  unfold Facade.combine, stringify_at, new.
  destruct (h !! selector1) as [this1|]; [|done].
  destruct (h !! selector2) as [this2|]; [|done].
  cbn. intros [= <- <-]. by exists this1, this2.
Qed.

Lemma at_most_once_perform act (h h' : heap) :
  (∀ a this, h !! a = Some this → at_most_once this) →
  perform act h = Some (Normal (), h') →
  ∀ a this, h' !! a = Some this → at_most_once this.
Proof.
  intros Hh. destruct act as [m value|s1 c s2|a m value|a s1 c s2]; cbn.
  - intros [= <-]. rewrite factory_eq. by apply at_most_once_store_new.
  - destruct (Facade.combine s1 c s2 h) as [[x h1]|] eqn:Hc; [|done].
    cbn. intros [= <-].
    apply combine_inv in Hc as (this1 & this2 & _ & _ & _ & ->).
    by apply (at_most_once_store_new h).
  - intros (this & Hthis & Hok & ->)%invoke_inv.
    apply at_most_once_store_insert; [done|].
    apply at_most_once_call; [by eapply Hh|done].
  - intros (this & Hthis & _ & ->)%invoke_inv.
    apply at_most_once_store_insert; [done|].
    apply at_most_once_combine. by eapply Hh.
Qed.

(** C8.  In a store reached through the facade and the methods of the
    builders it returned, with no action throwing, every builder holds at
    most one element fragment, at most one id fragment and at most one
    pseudo-element fragment. *)
Theorem singleton_fragments_at_most_once (h : heap) a this :
  reachable h →
  h !! a = Some this →
  count_kind MElement this ≤ 1
  ∧ count_kind MId this ≤ 1
  ∧ count_kind MPseudoElement this ≤ 1.
Proof.
  intros Hreach. revert a this.
  induction Hreach as [|act h h' _ IH Hstep]; intros a this.
  - by rewrite lookup_nil.
  - by apply (at_most_once_perform act h h').
Qed.

Lemma singleton_fragments_at_most_once_witness :
  let h := <[0 := snd (chain [(MId, "main"); (MPseudoElement, "before")]
                  (CssSelectorBuilder.constructor (Obj (Some "element") "div")))]>
             (snd (factory MElement "div" [])) in
  ∃ this, h !! 0 = Some this
    ∧ count_kind MElement this ≤ 1
    ∧ count_kind MId this ≤ 1
    ∧ count_kind MPseudoElement this ≤ 1.
Proof.
  eexists. split; [reflexivity|].
  apply (singleton_fragments_at_most_once
           (<[0 := snd (chain [(MId, "main"); (MPseudoElement, "before")]
                  (CssSelectorBuilder.constructor (Obj (Some "element") "div")))]>
             (snd (factory MElement "div" []))) 0).
  - apply (reachable_step (Call 0 MPseudoElement "before")
             (<[0 := snd (chain [(MId, "main")]
                  (CssSelectorBuilder.constructor (Obj (Some "element") "div")))]>
                (snd (factory MElement "div" [])))).
    + apply (reachable_step (Call 0 MId "main") (snd (factory MElement "div" []))).
      * apply (reachable_step (New MElement "div") []); [constructor|reflexivity].
      * vm_compute. reflexivity.
    + vm_compute. reflexivity.
  - reflexivity.
Defined.

(** ** Combination *)

Lemma stringify_constructor_composite text :
  CssSelectorBuilder.stringify (CssSelectorBuilder.constructor (Obj None text)) = text.
Proof. unfold CssSelectorBuilder.stringify. cbn. apply append_empty_r. Qed.

(** C4.  [combine] of two builders of the store, however they were made,
    returns a builder whose [stringify()] is the text of the first, a
    space, the combinator, a space and the text of the second.  A combined
    builder is an operand like any other, and the nested selector of the
    documentation comes out with its three spaces. *)
Theorem combine_joins_operand_texts :
  (∀ (h : heap) a combinator b text1 text2,
     stringify_at a h = Some text1 →
     stringify_at b h = Some text2 →
     ∃ x (h' : heap),
       Facade.combine a combinator b h = Some (x, h')
       ∧ stringify_at x h'
           = Some (text1 +:+ " " +:+ combinator +:+ " " +:+ text2))
  ∧ (let '(table, h) := Facade.element "table" [] in
     let '(tr, h) := Facade.element "tr" h in
     let '(td, h) := Facade.element "td" h in
     (h ← snd <$> invoke table (CssSelectorBuilder.id "data") h;
      h ← snd <$> invoke tr (CssSelectorBuilder.pseudoClass "nth-of-type(even)") h;
      h ← snd <$> invoke td (CssSelectorBuilder.pseudoClass "nth-of-type(even)") h;
      '(inner, h) ← Facade.combine tr " " td h;
      '(outer, h) ← Facade.combine table "~" inner h;
      stringify_at outer h)
     = Some "table#data ~ tr:nth-of-type(even)   td:nth-of-type(even)").
Proof.
  split; [|vm_compute; reflexivity].
  intros h a combinator b text1 text2 Ha Hb.
  unfold Facade.combine, new. rewrite Ha, Hb.
  cbn -[CssSelectorBuilder.stringify CssSelectorBuilder.constructor].
  do 2 eexists. split; [reflexivity|].
  unfold stringify_at. rewrite lookup_app_r, Nat.sub_diag by lia.
  cbn -[CssSelectorBuilder.stringify CssSelectorBuilder.constructor].
  by rewrite stringify_constructor_composite.
Qed.

Lemma combine_joins_operand_texts_witness :
  let h := snd (Facade.id "b" (snd (Facade.element "a" []))) in
  ∃ x (h' : heap),
    Facade.combine 0 ">" 1 h = Some (x, h')
    ∧ stringify_at x h' = Some ("a" +:+ " " +:+ ">" +:+ " " +:+ "#b").
Proof.
  apply (proj1 combine_joins_operand_texts
           (snd (Facade.id "b" (snd (Facade.element "a" [])))) 0 ">" 1 "a" "#b");
    reflexivity.
Defined.

Lemma attempt_each_frame calls (h : heap) x :
  Forall (λ c : addr * (method * string), c.1 < length h ∧ c.1 ≠ x) calls →
  ∃ h2 : heap, attempt_each calls h = Some h2
               ∧ length h2 = length h ∧ h2 !! x = h !! x.
Proof.
  revert h. induction calls as [|[a [m value]] rest IH]; intros h Hcalls.
  - by exists h.
  - apply Forall_cons in Hcalls as [[Hlt Hne] Hrest]. cbn in Hlt, Hne.
    destruct (lookup_lt_is_Some_2 h a Hlt) as [this Hthis].
    cbn [attempt_each]. rewrite (invoke_lookup _ _ _ _ Hthis). cbn.
    destruct (IH (<[a := snd (call m value this)]> h)) as (h2 & Hrun & Hlen & Hx).
    { rewrite length_insert. exact Hrest. }
    exists h2. split; [done|].
    rewrite Hlen, Hx, length_insert. split; [done|].
    by apply list_lookup_insert_ne.
Qed.

(** C5.  The builder [combine] returns holds the text its operands had when
    it was called.  Whatever fragment calls are made on the operands
    afterwards, accepted or not, they run, and [stringify()] on the combined
    builder returns what it returned before them. *)
Theorem combine_captures_operand_texts (h : heap) a combinator b x (h1 : heap) calls :
  Facade.combine a combinator b h = Some (x, h1) →
  Forall (λ c : addr * (method * string), c.1 = a ∨ c.1 = b) calls →
  ∃ (h2 : heap) text,
    attempt_each calls h1 = Some h2
    ∧ stringify_at x h1 = Some text
    ∧ stringify_at x h2 = Some text.
Proof.
  intros (this1 & this2 & Ha & Hb & -> & ->)%combine_inv Hcalls.
  apply lookup_lt_Some in Ha, Hb.
  destruct (attempt_each_frame calls
              (h ++ [CssSelectorBuilder.constructor
                       (Obj None (CssSelectorBuilder.stringify this1 +:+ " " +:+ combinator
                                  +:+ " " +:+ CssSelectorBuilder.stringify this2))])
              (length h)) as (h2 & Hrun & _ & Hx).
  { eapply Forall_impl; [exact Hcalls|].
    intros [t c] Ht. cbn in *. rewrite length_app. cbn. lia. }
  exists h2. eexists. split; [done|].
  unfold stringify_at. rewrite Hx, lookup_app_r, Nat.sub_diag by lia.
  split; reflexivity.
Qed.

Lemma combine_captures_operand_texts_witness :
  let h := snd (Facade.id "b" (snd (Facade.element "a" []))) in
  let h1 := h ++ [CssSelectorBuilder.constructor (Obj None "a > #b")] in
  let calls := [(0, (MClass, "c")); (1, (MElement, "d")); (1, (MAttr, "e"))] in
  ∃ (h2 : heap) text,
    attempt_each calls h1 = Some h2
    ∧ stringify_at 2 h1 = Some text
    ∧ stringify_at 2 h2 = Some text.
Proof.
  apply (combine_captures_operand_texts
           (snd (Facade.id "b" (snd (Facade.element "a" [])))) 0 ">" 1 2).
  - reflexivity.
  - constructor; [left; reflexivity|].
    constructor; [right; reflexivity|].
    constructor; [right; reflexivity|].
    constructor.
Defined.

(** The calls of the witness above do change the operands. *)
Example operands_change_after_combine :
  let h := snd (Facade.id "b" (snd (Facade.element "a" []))) in
  let r := Facade.combine 0 ">" 1 h in
  let after := r ≫= λ r, attempt_each [(0, (MClass, "c")); (1, (MElement, "d")); (1, (MAttr, "e"))] r.2 in
  after ≫= stringify_at 0 = Some "a.c"
  ∧ after ≫= stringify_at 1 = Some "#b[e]"
  ∧ after ≫= stringify_at 2 = Some "a > #b".
Proof. repeat split; vm_compute; reflexivity. Qed.

Lemma constructor_composite text :
  CssSelectorBuilder.constructor (Obj None text) = mkBuilder [Obj None text] None.
Proof.
  unfold CssSelectorBuilder.constructor. cbn [get_type].
  by rewrite avalableSelectorsMap_undefined.
Qed.

Lemma call_composite m value text :
  call m value (mkBuilder [Obj None text] None)
  = (Throw UndefinedAccess, mkBuilder [Obj None text] None).
Proof. rewrite call_eq. by destruct m. Qed.

(** C10.  The builder that the facade's [combine] returns has no [type] on
    its seed, so its [avalableSelectors] is [undefined].  Its [stringify()]
    returns the composite text, and every fragment method called on it
    throws on reading [includes] off [undefined], which is neither the
    duplicate error nor the order error, and leaves the store as it was. *)
Theorem combined_builder_rejects_fragment_calls
    (h : heap) a combinator b x (h1 : heap) :
  Facade.combine a combinator b h = Some (x, h1) →
  (∃ text1 text2,
     stringify_at a h = Some text1 ∧ stringify_at b h = Some text2
     ∧ stringify_at x h1 = Some (text1 +:+ " " +:+ combinator +:+ " " +:+ text2))
  ∧ avalableSelectors <$> h1 !! x = Some None
  ∧ (∀ m value, invoke x (call m value) h1 = Some (Throw UndefinedAccess, h1))
  ∧ UndefinedAccess ≠ DuplicateSingletonError
  ∧ UndefinedAccess ≠ OrderViolationError.
Proof.
  intros (this1 & this2 & Ha & Hb & -> & ->)%combine_inv.
  assert (∀ text, (h ++ [CssSelectorBuilder.constructor (Obj None text)]) !! length h
                  = Some (mkBuilder [Obj None text] None)) as Hx.
  { intros text. rewrite lookup_app_r, Nat.sub_diag, constructor_composite by lia.
    reflexivity. }
  split; [|split; [|split; [|split]]]; try discriminate.
  - exists (CssSelectorBuilder.stringify this1), (CssSelectorBuilder.stringify this2).
    unfold stringify_at. rewrite Ha, Hb, Hx.
    repeat split. cbn [fmap option_fmap option_map]. f_equal.
    rewrite <- constructor_composite. apply stringify_constructor_composite.
  - by rewrite Hx.
  - intros m value.
    apply (invoke_call_throws _ _ _ _ _ _ (Hx _)), call_composite.
Qed.

Lemma combined_builder_rejects_fragment_calls_witness :
  let h := snd (Facade.id "b" (snd (Facade.element "a" []))) in
  let h1 := h ++ [CssSelectorBuilder.constructor (Obj None "a > #b")] in
  (∃ text1 text2,
     stringify_at 0 h = Some text1 ∧ stringify_at 1 h = Some text2
     ∧ stringify_at 2 h1 = Some (text1 +:+ " " +:+ ">" +:+ " " +:+ text2))
  ∧ avalableSelectors <$> h1 !! 2 = Some None
  ∧ (∀ m value, invoke 2 (call m value) h1 = Some (Throw UndefinedAccess, h1))
  ∧ UndefinedAccess ≠ DuplicateSingletonError
  ∧ UndefinedAccess ≠ OrderViolationError.
Proof.
  apply (combined_builder_rejects_fragment_calls
           (snd (Facade.id "b" (snd (Facade.element "a" [])))) 0 ">" 1 2).
  reflexivity.
Defined.

(** ** The facade *)

Lemma cssSelectorBuilder_dom :
  dom cssSelectorBuilder
  = {[ "element"; "id"; "class"; "attr"; "pseudoClass"; "pseudoElement"; "combine" ]}.
Proof.
  unfold cssSelectorBuilder.
  rewrite !dom_insert_L, dom_empty_L. set_solver.
Qed.

Lemma cssSelectorBuilder_lookup name entry :
  cssSelectorBuilder !! name = Some entry →
  (∃ m, name = type_of m ∧ entry = Unary (factory m))
  ∨ (name = "combine" ∧ entry = Ternary Facade.combine).
Proof.
  intros Hentry.
  assert (name ∈ dom cssSelectorBuilder) as Hname by (by apply elem_of_dom).
  rewrite cssSelectorBuilder_dom in Hname.
  repeat (apply elem_of_union in Hname as [Hname|Hname]);
    apply elem_of_singleton in Hname as ->;
    vm_compute in Hentry; injection Hentry as <-.
  - left. by exists MElement.
  - left. by exists MId.
  - left. by exists MClass.
  - left. by exists MAttr.
  - left. by exists MPseudoClass.
  - left. by exists MPseudoElement.
  - by right.
Qed.

(** C9, as the code has it.  The facade has exactly seven properties,
    named [element], [id], [class], [attr], [pseudoClass], [pseudoElement]
    and [combine].  The first six take a value and [combine] takes two
    builders and a combinator; each returns a builder that was not in the
    store and leaves the builders of the store as they were.  Every builder
    answers [stringify()]. *)
Theorem facade_entry_points :
  dom cssSelectorBuilder
    = {[ "element"; "id"; "class"; "attr"; "pseudoClass"; "pseudoElement"; "combine" ]}
  ∧ (∀ name f, cssSelectorBuilder !! name = Some (Unary f) →
       ∀ value (h : heap),
         fst (f value h) = length h ∧ ∃ this, snd (f value h) = h ++ [this])
  ∧ (∀ name f, cssSelectorBuilder !! name = Some (Ternary f) →
       ∀ a combinator b (h : heap), a < length h → b < length h →
         ∃ this, f a combinator b h = Some (length h, h ++ [this]))
  ∧ (∀ (h : heap) a, a < length h → is_Some (stringify_at a h))
  ∧ (∀ m, cssSelectorBuilder !! type_of m = Some (Unary (factory m)))
  ∧ cssSelectorBuilder !! "combine" = Some (Ternary Facade.combine).
Proof.
  split; [exact cssSelectorBuilder_dom|].
  split; [|split; [|split; [|split]]].
  - intros name f [(m & _ & [= ->])|[_ [=]]]%cssSelectorBuilder_lookup value h.
    rewrite factory_eq. unfold new. cbn. eauto.
  - intros name f [(m & _ & [=])|[_ [= ->]]]%cssSelectorBuilder_lookup a c b h Ha Hb.
    destruct (lookup_lt_is_Some_2 h a Ha) as [this1 H1].
    destruct (lookup_lt_is_Some_2 h b Hb) as [this2 H2].
    unfold Facade.combine, stringify_at, new. rewrite H1, H2. cbn. eauto.
  - intros h a [this Ha]%lookup_lt_is_Some_2.
    unfold stringify_at. rewrite Ha. by eexists.
  - intros m. destruct m; vm_compute; reflexivity.
  - vm_compute. reflexivity.
Qed.

Lemma facade_entry_points_witness :
  fst (Facade.attr "lang" []) = 0
  ∧ ∃ this, snd (Facade.attr "lang" []) = [] ++ [this].
Proof.
  destruct facade_entry_points as (_ & Hunary & _).
  apply (Hunary "attr" Facade.attr).
  vm_compute. reflexivity.
Defined.

(** The claim fails as stated: the facade has no property [attribute]. *)
Lemma facade_attribute_counterexample :
  cssSelectorBuilder !! "attribute" = None
  ∧ dom cssSelectorBuilder
      ≠ {[ "element"; "id"; "class"; "attribute"; "pseudoClass"; "pseudoElement";
           "combine" ]}.
Proof.
  assert (cssSelectorBuilder !! "attribute" = None) as Hnone
    by (vm_compute; reflexivity).
  split; [exact Hnone|].
  intros Hdom.
  assert ("attribute" ∈ dom cssSelectorBuilder) as [entry Hentry]%elem_of_dom
    by (rewrite Hdom; set_solver).
  by rewrite Hnone in Hentry.
Qed.

(** ** Builders and their call histories *)

Lemma type_of_inj m m' : type_of m = type_of m' → m = m'.
Proof. by destruct m, m'. Qed.

Lemma fragments_app sel extra av av' :
  fragments (mkBuilder (sel ++ extra) av')
  = fragments (mkBuilder sel av) ++ List.filter is_fragment extra.
Proof. unfold fragments. cbn. apply List.filter_app. Qed.

Lemma elem_of_fragments x this :
  x ∈ fragments this ↔ x ∈ selectors this ∧ is_fragment x = true.
Proof. unfold fragments. rewrite !list_elem_of_In. apply List.filter_In. Qed.

Lemma built_by_has_fragment m0 value0 calls this m :
  built_by m0 value0 calls this →
  has_fragment m this ↔ m ∈ m0 :: map fst calls.
Proof.
  intros (_ & Hfr & _). unfold has_fragment.
  rewrite list_elem_of_In.
  change (m0 :: map fst calls) with (map fst ((m0, value0) :: calls)).
  rewrite in_map_iff. split.
  - intros [text Hin].
    assert (Obj (Some (type_of m)) text ∈ fragments this) as Hin'
      by (by apply elem_of_fragments).
    rewrite Hfr in Hin'.
    apply list_elem_of_In, in_map_iff in Hin' as ([m' v'] & Heq & Hc).
    injection Heq as ->%type_of_inj _.
    by exists (m, v').
  - intros ([m' v'] & <- & Hc).
    exists (rendered m' v').
    apply (elem_of_fragments (Obj (Some (type_of m')) (rendered m' v'))).
    rewrite Hfr. apply list_elem_of_In, in_map_iff.
    by exists (m', v').
Qed.

Lemma valid_next_spec prev m :
  valid_next prev m = true ↔
  stage prev < stage m ∨ (prev = m ∧ singleton m = false).
Proof.
  unfold valid_next.
  by rewrite orb_true_iff, andb_true_iff, Nat.ltb_lt, bool_decide_eq_true,
    negb_true_iff.
Qed.

Lemma valid_next_element prev : valid_next prev MElement = false.
Proof. by destruct prev. Qed.

Lemma valid_next_after_pseudoElement m : valid_next MPseudoElement m = false.
Proof. by destruct m. Qed.

Lemma valid_order_snoc prev ms m :
  valid_order prev (ms ++ [m])
  = valid_order prev ms && valid_next (List.last ms prev) m.
Proof.
  revert prev. induction ms as [|m1 rest IH]; intros prev.
  - cbn. by rewrite andb_true_r.
  - cbn [app valid_order]. rewrite IH, last_cons. by rewrite andb_assoc.
Qed.

(** In a valid order no kind is at a later stage than the last one. *)
Lemma valid_order_stage_le prev ms m :
  valid_order prev ms = true →
  m ∈ prev :: ms →
  stage m ≤ stage (List.last ms prev).
Proof.
  revert prev m. induction ms as [|m1 rest IH]; intros prev m Hvalid Hin.
  - apply list_elem_of_singleton in Hin as ->. done.
  - cbn [valid_order] in Hvalid.
    apply andb_true_iff in Hvalid as [Hnext Hrest].
    rewrite last_cons.
    apply elem_of_cons in Hin as [->|Hin].
    + pose proof (IH m1 m1 Hrest (list_elem_of_here _ _)) as Hle.
      apply valid_next_spec in Hnext as [Hlt|[-> _]]; lia.
    + by apply IH.
Qed.

Lemma built_by_constructor m0 value0 :
  built_by m0 value0 []
    (CssSelectorBuilder.constructor (Obj (Some (type_of m0)) (rendered m0 value0))).
Proof. by rewrite constructor_fragment. Qed.

(** A call that the order allows is accepted, and the history grows by
    it. *)
Lemma call_built_by_accept m0 value0 calls this m value :
  built_by m0 value0 calls this →
  valid_next (List.last (map fst calls) m0) m = true →
  fst (call m value this) = Normal ()
  ∧ built_by m0 value0 (calls ++ [(m, value)]) (snd (call m value this)).
Proof.
  intros Hb Hnext.
  pose proof Hb as (Hav & Hfr & Hvalid).
  assert (singleton m && holds (type_of m) (selectors this) = false) as Hdup.
  { apply valid_next_spec in Hnext as [Hlt|[_ ->]]; [|done].
    destruct (holds _ _) eqn:Hh; [|by rewrite andb_false_r].
    apply holds_has_fragment, (built_by_has_fragment _ _ _ _ _ Hb) in Hh.
    pose proof (valid_order_stage_le _ _ _ Hvalid Hh). lia. }
  assert (includes (avalable_after (List.last (map fst calls) m0)) (type_of m) = true)
    as Hinc.
  { rewrite includes_avalable_after. apply bool_decide_eq_true.
    apply valid_next_spec in Hnext as [Hlt|[-> Hs]].
    - split; [lia|]. intros Hpe. rewrite Hpe in Hlt. destruct m; cbn in Hlt; lia.
    - split; [done|]. by intros ->. }
  rewrite call_eq, Hdup, Hav, Hinc. cbn [fst snd]. split; [done|].
  assert (m ≠ MElement) as Hm
    by (intros ->; by rewrite valid_next_element in Hnext).
  destruct this as [sel av]. cbn [selectors avalableSelectors] in *.
  split; [|split].
  - cbn [avalableSelectors]. rewrite map_app. cbn [map fst]. rewrite last_last.
    by destruct m.
  - rewrite (fragments_app sel _ av), fragments_pushed, Hfr.
    change ((m0, value0) :: calls ++ [(m, value)])
      with (((m0, value0) :: calls) ++ [(m, value)]).
    by rewrite map_app.
  - rewrite map_app. cbn [map fst]. by rewrite valid_order_snoc, Hvalid, Hnext.
Qed.

(** A call that the order does not allow throws: the duplicate error when
    it is a singleton call whose kind is in the history, the order error
    otherwise. *)
Lemma call_built_by_reject m0 value0 calls this m value :
  built_by m0 value0 calls this →
  valid_next (List.last (map fst calls) m0) m = false →
  call m value this =
    (Throw (if singleton m && bool_decide (m ∈ m0 :: map fst calls)
            then DuplicateSingletonError else OrderViolationError), this).
Proof.
  intros Hb Hnext.
  pose proof Hb as (Hav & Hfr & Hvalid).
  assert (holds (type_of m) (selectors this) = bool_decide (m ∈ m0 :: map fst calls))
    as Hholds.
  { destruct (holds _ _) eqn:Hh; symmetry.
    - by apply bool_decide_eq_true, (built_by_has_fragment _ _ _ _ _ Hb),
        holds_has_fragment.
    - apply bool_decide_eq_false.
      intros Hin%(built_by_has_fragment _ _ _ _ _ Hb)%holds_has_fragment.
      congruence. }
  rewrite call_eq, Hholds, Hav.
  destruct (singleton m && bool_decide _) eqn:Hdup; [done|].
  rewrite includes_avalable_after.
  rewrite bool_decide_eq_false_2; [done|].
  intros [Hle Hpe].
  destruct (decide (List.last (map fst calls) m0 = m)) as [Heq|Hne].
  - assert (singleton m = true) as Hs.
    { destruct (singleton m) eqn:Hs; [done|].
      assert (valid_next (List.last (map fst calls) m0) m = true)
        by (apply valid_next_spec; by right).
      congruence. }
    rewrite Hs, bool_decide_eq_true_2 in Hdup; [done|].
    rewrite <- Heq.
    change (m0 :: map fst calls) with ([m0] ++ map fst calls).
    destruct (map fst calls) as [|m1 ms] using rev_ind; [left|].
    rewrite last_last. apply elem_of_app. right. apply elem_of_app. right. left.
  - assert (valid_next (List.last (map fst calls) m0) m = true); [|congruence].
    apply valid_next_spec. left.
    destruct (decide (stage (List.last (map fst calls) m0) = stage m))
      as [Hst%stage_inj|Hst]; [done|lia].
Qed.

Lemma chain_built_by calls m0 value0 calls0 this :
  built_by m0 value0 calls0 this →
  if valid_order (List.last (map fst calls0) m0) (map fst calls)
  then fst (chain calls this) = Normal ()
       ∧ built_by m0 value0 (calls0 ++ calls) (snd (chain calls this))
  else ∃ e, fst (chain calls this) = Throw e.
Proof.
  revert calls0 this. induction calls as [|[m value] rest IH]; intros calls0 this Hb.
  - cbn. by rewrite app_nil_r.
  - cbn [map fst valid_order]. rewrite chain_cons.
    destruct (valid_next (List.last (map fst calls0) m0) m) eqn:Hnext.
    + destruct (call_built_by_accept _ _ _ _ m value Hb Hnext) as [Hok Hb'].
      rewrite Hok. specialize (IH _ _ Hb').
      rewrite map_app in IH. cbn [map fst] in IH. rewrite last_last in IH.
      rewrite andb_true_l.
      by rewrite <- app_assoc in IH.
    + rewrite (call_built_by_reject _ _ _ _ m value Hb Hnext). cbn. eauto.
Qed.

Lemma invoke_factory_chain (h : heap) m0 value0 calls :
  invoke (fst (factory m0 value0 h)) (chain calls) (snd (factory m0 value0 h))
  = let seed := CssSelectorBuilder.constructor
                  (Obj (Some (type_of m0)) (rendered m0 value0)) in
    Some (fst (chain calls seed),
          <[length h := snd (chain calls seed)]> (snd (factory m0 value0 h))).
Proof.
  rewrite (invoke_lookup _ _ _ _ (factory_lookup m0 value0 h)).
  by rewrite factory_fresh.
Qed.

Lemma lookup_factory_insert (h : heap) m0 value0 this :
  <[length h := this]> (snd (factory m0 value0 h)) !! length h = Some this.
Proof. apply list_lookup_insert_eq. rewrite factory_length. lia. Qed.

(** X1.  A chain of fragment calls on a builder that a factory made
    completes without a throw exactly when its kinds are in order after the
    kind of the factory: each call is at a later stage than the one before
    it, or repeats the stage of a class, an attribute or a pseudo-class. *)
Theorem chain_accepted_iff_valid_order (h : heap) m0 value0 calls :
  (∃ h' : heap,
     invoke (fst (factory m0 value0 h)) (chain calls) (snd (factory m0 value0 h))
       = Some (Normal (), h'))
  ↔ valid_order m0 (map fst calls) = true.
Proof.
  rewrite invoke_factory_chain. cbv zeta.
  pose proof (chain_built_by calls m0 value0 [] _ (built_by_constructor m0 value0))
    as Hchain.
  cbn [map List.last] in Hchain.
  destruct (valid_order m0 (map fst calls)).
  - destruct Hchain as [-> _]. split; [done|]. intros _. by eexists.
  - destruct Hchain as [e ->]. split; [|done]. by intros [h' [=]].
Qed.

Lemma chain_accepted_iff_valid_order_witness :
  ∃ h' : heap,
    invoke (fst (factory MElement "a" []))
      (chain [(MId, "b"); (MClass, "c"); (MClass, "d"); (MPseudoElement, "e")])
      (snd (factory MElement "a" [])) = Some (Normal (), h').
Proof.
  apply (proj2 (chain_accepted_iff_valid_order [] MElement "a"
                  [(MId, "b"); (MClass, "c"); (MClass, "d"); (MPseudoElement, "e")])).
  reflexivity.
Defined.

(** X2.  After a factory call and a chain of accepted calls the fragments of
    the builder are exactly those of the calls made, in call order, and the
    allowed kinds are those of the map entry of the last call. *)
Theorem fragments_are_call_history (h : heap) m0 value0 calls (h' : heap) :
  invoke (fst (factory m0 value0 h)) (chain calls) (snd (factory m0 value0 h))
    = Some (Normal (), h') →
  ∃ this, h' !! fst (factory m0 value0 h) = Some this
    ∧ fragments this = map (λ c, fragment_of c.1 c.2) ((m0, value0) :: calls)
    ∧ avalableSelectors this
        = avalableSelectorsMap !! type_of (List.last (map fst calls) m0).
Proof.
  rewrite invoke_factory_chain. cbv zeta. intros [= Hok <-].
  pose proof (chain_built_by calls m0 value0 [] _ (built_by_constructor m0 value0))
    as Hchain.
  cbn [map List.last app] in Hchain.
  destruct (valid_order m0 (map fst calls)).
  - destruct Hchain as [_ (Hav & Hfr & _)].
    eexists. rewrite factory_fresh.
    split; [apply (lookup_factory_insert h m0 value0)|].
    by rewrite avalableSelectorsMap_lookup.
  - destruct Hchain as [e He]. congruence.
Qed.

Lemma fragments_are_call_history_witness :
  ∃ (h' : heap) this,
    invoke 0 (chain [(MPseudoClass, "hover"); (MPseudoClass, "focus")])
      (snd (factory MAttr "x" [])) = Some (Normal (), h')
    ∧ h' !! 0 = Some this
    ∧ fragments this
        = [Obj (Some "attr") "[x]"; Obj (Some "pseudoClass") ":hover";
           Obj (Some "pseudoClass") ":focus"]
    ∧ avalableSelectors this = avalableSelectorsMap !! "pseudoClass".
Proof.
  eexists.
  destruct (fragments_are_call_history [] MAttr "x"
              [(MPseudoClass, "hover"); (MPseudoClass, "focus")] _ eq_refl)
    as (this & Hthis & Hfr & Hav).
  exists this. split; [reflexivity|]. split; [exact Hthis|]. split; [exact Hfr|exact Hav].
Defined.

(** X3.  On a builder that a factory made and a chain of accepted calls
    extended, the next call is accepted when it is in order after the last
    one.  Otherwise it throws and the store stays as it was: the duplicate
    error for [element], [id] or [pseudoElement] when a call of that kind
    is among those made, the order error in every other case. *)
Theorem next_call_outcome (h : heap) m0 value0 calls (h' : heap) m value :
  let a := fst (factory m0 value0 h) in
  invoke a (chain calls) (snd (factory m0 value0 h)) = Some (Normal (), h') →
  if valid_next (List.last (map fst calls) m0) m
  then ∃ h'' : heap, invoke a (call m value) h' = Some (Normal (), h'')
  else invoke a (call m value) h'
       = Some (Throw (if singleton m && bool_decide (m ∈ m0 :: map fst calls)
                      then DuplicateSingletonError else OrderViolationError), h').
Proof.
  intros a. unfold a. rewrite invoke_factory_chain. cbv zeta. intros [= Hok <-].
  pose proof (chain_built_by calls m0 value0 [] _ (built_by_constructor m0 value0))
    as Hchain.
  cbn [map List.last app] in Hchain.
  destruct (valid_order m0 (map fst calls)); [|destruct Hchain as [e He]; congruence].
  destruct Hchain as [_ Hb].
  rewrite factory_fresh.
  destruct (valid_next _ m) eqn:Hnext.
  - destruct (call_built_by_accept _ _ _ _ m value Hb Hnext) as [Hcall _].
    rewrite (invoke_lookup _ _ _ _ (lookup_factory_insert h m0 value0 _)), Hcall.
    by eexists.
  - apply (invoke_call_throws _ _ _ _ _ _ (lookup_factory_insert h m0 value0 _)).
    by apply (call_built_by_reject _ _ _ _ _ _ Hb).
Qed.

Lemma next_call_outcome_witness :
  ∃ h' : heap,
    invoke 0 (chain [(MAttr, "b")]) (snd (factory MClass "a" [])) = Some (Normal (), h')
    ∧ invoke 0 (call MClass "c") h' = Some (Throw OrderViolationError, h')
    ∧ invoke 0 (call MId "d") h' = Some (Throw OrderViolationError, h').
Proof.
  eexists. split; [reflexivity|]. split.
  - apply (next_call_outcome [] MClass "a" [(MAttr, "b")] _ MClass "c"). reflexivity.
  - apply (next_call_outcome [] MClass "a" [(MAttr, "b")] _ MId "d"). reflexivity.
Defined.

(** ** The builders of a reachable store *)

(** Only fragments show in [stringify()]: numbers and strings have no
    [value]. *)
Lemma stringify_fragments this :
  CssSelectorBuilder.stringify this = join_empty (map get_value (fragments this)).
Proof.
  unfold CssSelectorBuilder.stringify, fragments.
  induction (selectors this) as [|x l IH]; [done|].
  destruct x as [t v|n|t]; cbn [map List.filter is_fragment join_empty get_value];
    by rewrite IH.
Qed.

Lemma join_history (hist : list (method * string)) :
  join_empty (map get_value (map (λ c, fragment_of c.1 c.2) hist))
  = concat_texts (map (λ c, rendered c.1 c.2) hist).
Proof.
  induction hist as [|[m v] hist IH]; [done|].
  cbn [map join_empty concat_texts get_value fragment_of fst snd]. by rewrite IH.
Qed.

Lemma store_insert_pred (P : builder → Prop) (h : heap) a this :
  (∀ b that, h !! b = Some that → P that) →
  P this →
  ∀ b that, <[a := this]> h !! b = Some that → P that.
Proof.
  intros Hh Hthis b that.
  destruct (decide (a = b)) as [->|Hne].
  - destruct (decide (b < length h)).
    + rewrite list_lookup_insert_eq by done. by intros [= <-].
    + rewrite list_insert_ge by lia. apply Hh.
  - rewrite list_lookup_insert_ne by done. apply Hh.
Qed.

Lemma store_new_pred (P : builder → Prop) (h : heap) selector :
  (∀ b that, h !! b = Some that → P that) →
  P (CssSelectorBuilder.constructor selector) →
  ∀ b that, snd (new selector h) !! b = Some that → P that.
Proof.
  intros Hh Hnew b that. unfold new. cbn [snd].
  intros [Hb|[_ Hb]]%lookup_app_Some; [by eapply Hh|].
  by apply list_lookup_singleton_Some in Hb as [_ <-].
Qed.

Lemma composite_constructor text :
  composite text (CssSelectorBuilder.constructor (Obj None text)).
Proof. by rewrite constructor_composite. Qed.

Lemma shaped_call m value this :
  shaped this →
  fst (call m value this) = Normal () →
  shaped (snd (call m value this)).
Proof.
  intros [[text [Hav _]]|(m0 & value0 & calls & Hb)] Hok.
  - apply call_normal in Hok as (l & Hl & _). congruence.
  - right. exists m0, value0, (calls ++ [(m, value)]).
    destruct (valid_next (List.last (map fst calls) m0) m) eqn:Hnext.
    + by apply call_built_by_accept.
    + rewrite (call_built_by_reject _ _ _ _ m value Hb Hnext) in Hok. done.
Qed.

Lemma shaped_combine selector1 combinator selector2 this :
  shaped this →
  shaped (snd (CssSelectorBuilder.combine selector1 combinator selector2 this)).
Proof.
  rewrite combine_eq. destruct this as [sel av]. cbn [snd selectors avalableSelectors].
  assert (fragments (mkBuilder (sel ++ [Str (selector1 +:+ combinator +:+ selector2)]) av)
          = fragments (mkBuilder sel av)) as Hfr
    by (rewrite (fragments_app sel _ av); apply app_nil_r).
  intros [[text [Hav Hf]]|(m0 & value0 & calls & Hav & Hf & Hvalid)].
  - left. exists text. split; [done|]. by rewrite Hfr.
  - right. exists m0, value0, calls. split; [done|]. split; [|done]. by rewrite Hfr.
Qed.

Lemma shaped_perform act (h h' : heap) :
  (∀ a this, h !! a = Some this → shaped this) →
  perform act h = Some (Normal (), h') →
  ∀ a this, h' !! a = Some this → shaped this.
Proof.
  intros Hh. destruct act as [m value|s1 c s2|a m value|a s1 c s2]; cbn [perform].
  - intros [= <-]. rewrite factory_eq.
    apply (store_new_pred shaped); [done|].
    right. exists m, value, []. apply built_by_constructor.
  - destruct (Facade.combine s1 c s2 h) as [[x h1]|] eqn:Hc; [|done].
    cbn. intros [= <-].
    apply combine_inv in Hc as (this1 & this2 & _ & _ & _ & ->).
    apply (store_new_pred shaped h); [done|].
    left. eexists. apply composite_constructor.
  - intros (this & Hthis & Hok & ->)%invoke_inv.
    apply (store_insert_pred shaped); [done|].
    apply shaped_call; [by eapply Hh|done].
  - intros (this & Hthis & _ & ->)%invoke_inv.
    apply (store_insert_pred shaped); [done|].
    apply shaped_combine. by eapply Hh.
Qed.

Lemma reachable_shaped (h : heap) a this :
  reachable h → h !! a = Some this → shaped this.
Proof.
  intros Hreach. revert a this.
  induction Hreach as [|act h h' _ IH Hstep]; intros a this.
  - by rewrite lookup_nil.
  - by apply (shaped_perform act h h').
Qed.

(** X4.  Every builder of a store reached with no action throwing is of
    one of two shapes.  Either it came from the facade's [combine]: it
    allows no kind, holds one untyped object and stringifies to its text.
    Or it came from a fragment factory: its fragments are those of the
    factory call and of the calls accepted since, whose kinds are in stage
    order, it allows what the map gives for the last of them, and it
    stringifies to their rendered texts. *)
Theorem reachable_builder_shape (h : heap) a this :
  reachable h →
  h !! a = Some this →
  (∃ text,
     avalableSelectors this = None
     ∧ fragments this = [Obj None text]
     ∧ CssSelectorBuilder.stringify this = text)
  ∨ (∃ m0 value0 calls,
       valid_order m0 (map fst calls) = true
       ∧ fragments this = map (λ c, fragment_of c.1 c.2) ((m0, value0) :: calls)
       ∧ avalableSelectors this
           = avalableSelectorsMap !! type_of (List.last (map fst calls) m0)
       ∧ CssSelectorBuilder.stringify this
           = concat_texts (map (λ c, rendered c.1 c.2) ((m0, value0) :: calls))).
Proof.
  intros Hreach Hthis.
  destruct (reachable_shaped h a this Hreach Hthis)
    as [[text [Hav Hf]]|(m0 & value0 & calls & Hav & Hf & Hvalid)].
  - left. exists text. repeat split; try done.
    rewrite stringify_fragments, Hf. cbn. apply append_empty_r.
  - right. exists m0, value0, calls. repeat split; try done.
    + by rewrite avalableSelectorsMap_lookup.
    + by rewrite stringify_fragments, Hf, join_history.
Qed.

Lemma reachable_two_builders :
  reachable
    (<[0 := snd (chain [(MPseudoClass, "hover")]
              (CssSelectorBuilder.constructor (Obj (Some "element") "a")))]>
       (snd (factory MElement "a" []))
     ++ [CssSelectorBuilder.constructor (Obj None "a:hover > a:hover")]).
Proof.
  apply (reachable_step (Combine 0 ">" 0)
           (<[0 := snd (chain [(MPseudoClass, "hover")]
                     (CssSelectorBuilder.constructor (Obj (Some "element") "a")))]>
              (snd (factory MElement "a" [])))); [|reflexivity].
  apply (reachable_step (Call 0 MPseudoClass "hover") (snd (factory MElement "a" [])));
    [|reflexivity].
  apply (reachable_step (New MElement "a") []); [constructor|reflexivity].
Defined.

Lemma reachable_builder_shape_witness :
  ∃ m0 value0 calls,
    valid_order m0 (map fst calls) = true
    ∧ fragments (snd (chain [(MPseudoClass, "hover")]
                        (CssSelectorBuilder.constructor (Obj (Some "element") "a"))))
        = map (λ c, fragment_of c.1 c.2) ((m0, value0) :: calls).
Proof.
  destruct (reachable_builder_shape _ 0 _ reachable_two_builders eq_refl)
    as [(text & Hav & _)|(m0 & value0 & calls & Hvalid & Hfr & _)].
  - discriminate Hav.
  - by exists m0, value0, calls.
Defined.

Lemma shaped_element_throws value this :
  shaped this →
  ∃ e, CssSelectorBuilder.element value this = (Throw e, this)
       ∧ (e = DuplicateSingletonError ↔ has_fragment MElement this).
Proof.
  intros Hshape.
  assert (∃ e, fst (call MElement value this) = Throw e) as [e He].
  { destruct (fst (call MElement value this)) as [[]|e] eqn:Hc; [|by exists e].
    destruct Hshape as [[text [Hav _]]|(m0 & value0 & calls & Hb)].
    - apply call_normal in Hc as (l & Hl & _). congruence.
    - rewrite (call_built_by_reject _ _ _ _ MElement value Hb
                 (valid_next_element _)) in Hc. done. }
  exists e. split.
  - change (call MElement value this = (Throw e, this)).
    pose proof (call_throws_unchanged _ _ _ _ He) as Hs.
    destruct (call MElement value this) as [r this']. cbn in He, Hs. by subst.
  - rewrite <- holds_has_fragment. rewrite call_eq in He. cbn [singleton andb] in He.
    destruct (holds (type_of MElement) (selectors this)).
    + injection He as <-. done.
    + destruct (avalableSelectors this) as [l|]; [destruct (includes l _)|];
        try discriminate; injection He as <-; split; discriminate.
Qed.

(** X5.  The method [element] is never accepted.  On every builder of a
    store reached with no action throwing it throws and leaves the store as
    it was; an element fragment comes from the factory of the facade only.
    The error is the duplicate one exactly when the builder holds an
    element fragment. *)
Theorem element_method_always_throws (h : heap) a this value :
  reachable h →
  h !! a = Some this →
  ∃ e, invoke a (CssSelectorBuilder.element value) h = Some (Throw e, h)
       ∧ (e = DuplicateSingletonError ↔ has_fragment MElement this).
Proof.
  intros Hreach Hthis.
  destruct (shaped_element_throws value this (reachable_shaped h a this Hreach Hthis))
    as (e & He & Hdup).
  exists e. split; [|done].
  by apply (invoke_call_throws a MElement value h this e).
Qed.

Lemma element_method_always_throws_witness :
  ∃ e, invoke 0 (CssSelectorBuilder.element "b") (snd (factory MId "a" []))
         = Some (Throw e, snd (factory MId "a" []))
       ∧ (e = DuplicateSingletonError
          ↔ has_fragment MElement (CssSelectorBuilder.constructor (Obj (Some "id") "#a"))).
Proof.
  apply (element_method_always_throws (snd (factory MId "a" [])) 0).
  - apply (reachable_step (New MId "a") []); [constructor|reflexivity].
  - reflexivity.
Defined.

(** ** After a pseudo-element *)

Lemma call_nothing_allowed m value this :
  avalableSelectors this = Some [] →
  ∃ e, call m value this = (Throw e, this)
       ∧ (e = DuplicateSingletonError ∨ e = OrderViolationError).
Proof.
  intros Hav. rewrite call_eq, Hav. cbn [includes existsb].
  destruct (singleton m && holds _ _); eauto.
Qed.

Lemma attempt_all_nothing_allowed calls this :
  avalableSelectors this = Some [] → attempt_all calls this = this.
Proof.
  intros Hav. induction calls as [|[m value] rest IH]; [done|].
  cbn [attempt_all].
  destruct (call_nothing_allowed m value this Hav) as (e & -> & _). exact IH.
Qed.

(** X6.  A pseudo-element ends a selector.  On a builder whose
    [pseudoElement] call was accepted, or that the [pseudoElement] factory
    made, every later fragment call throws the duplicate error or the order
    error, and whatever calls are attempted the builder stays as it is. *)
Theorem pseudoElement_is_terminal :
  (∀ this value between m value',
     fst (CssSelectorBuilder.pseudoElement value this) = Normal () →
     let after := snd (CssSelectorBuilder.pseudoElement value this) in
     attempt_all between after = after
     ∧ ∃ e, call m value' after = (Throw e, after)
            ∧ (e = DuplicateSingletonError ∨ e = OrderViolationError))
  ∧ (∀ (h : heap) value this between m value',
       snd (Facade.pseudoElement value h) !! fst (Facade.pseudoElement value h)
         = Some this →
       attempt_all between this = this
       ∧ ∃ e, call m value' this = (Throw e, this)
              ∧ (e = DuplicateSingletonError ∨ e = OrderViolationError)).
Proof.
  split.
  - intros this value between m value' Hok after.
    assert (avalableSelectors after = Some []) as Hav.
    { unfold after.
      change (CssSelectorBuilder.pseudoElement value this)
        with (call MPseudoElement value this) in *.
      by apply call_normal in Hok as (l & _ & _ & _ & ->). }
    split; [by apply attempt_all_nothing_allowed|by apply call_nothing_allowed].
  - intros h value this between m value' Hthis.
    assert (avalableSelectors this = Some []) as Hav.
    { rewrite (factory_lookup MPseudoElement) in Hthis. injection Hthis as <-.
      by rewrite (constructor_fragment MPseudoElement). }
    split; [by apply attempt_all_nothing_allowed|by apply call_nothing_allowed].
Qed.

Lemma pseudoElement_is_terminal_witness :
  let after := snd (CssSelectorBuilder.pseudoElement "before"
                      (CssSelectorBuilder.constructor (Obj (Some "element") "p"))) in
  attempt_all [(MClass, "a"); (MPseudoElement, "after")] after = after
  ∧ ∃ e, call MPseudoClass "hover" after = (Throw e, after)
         ∧ (e = DuplicateSingletonError ∨ e = OrderViolationError).
Proof.
  apply (proj1 pseudoElement_is_terminal
           (CssSelectorBuilder.constructor (Obj (Some "element") "p")) "before").
  reflexivity.
Defined.

(** ** The instance method [combine] *)

Lemma holds_push_untyped t l x :
  get_type x = None → holds t (l ++ [x]) = holds t l.
Proof.
  intros Hx. unfold holds.
  induction l as [|y l IH]; cbn [app find].
  - by rewrite Hx.
  - by destruct (strict_eq (get_type y) t).
Qed.

Lemma stringify_push_untyped sel av x :
  get_value x = None →
  CssSelectorBuilder.stringify (mkBuilder (sel ++ [x]) av)
  = CssSelectorBuilder.stringify (mkBuilder sel av).
Proof.
  intros Hx. rewrite (stringify_push sel av). cbn [map join_empty].
  rewrite Hx. cbn. apply append_empty_r.
Qed.

(** ** Nested combinations *)

Lemma combine_Some a combinator b (h : heap) text1 text2 :
  stringify_at a h = Some text1 →
  stringify_at b h = Some text2 →
  Facade.combine a combinator b h
  = Some (length h,
          h ++ [CssSelectorBuilder.constructor
                  (Obj None (text1 +:+ " " +:+ combinator +:+ " " +:+ text2))]).
Proof. intros Ha Hb. unfold Facade.combine, new. by rewrite Ha, Hb. Qed.

Lemma stringify_at_old a (h : heap) this text :
  stringify_at a h = Some text → stringify_at a (h ++ [this]) = Some text.
Proof.
  unfold stringify_at. destruct (h !! a) as [that|] eqn:Ha; [|done].
  by rewrite (lookup_app_l_Some _ _ _ _ Ha).
Qed.

Lemma stringify_at_new (h : heap) text :
  stringify_at (length h) (h ++ [CssSelectorBuilder.constructor (Obj None text)])
  = Some text.
Proof.
  unfold stringify_at. rewrite lookup_app_r, Nat.sub_diag by lia.
  cbn [lookup list_lookup fmap option_fmap option_map].
  by rewrite stringify_constructor_composite.
Qed.

(** X8.  The text of a nested combination does not depend on how it is
    nested: combining [a] with [b] and the result with [c] gives the same
    text as combining [a] with the combination of [b] and [c], namely the
    three texts with the two combinators between them, each with a space on
    either side. *)
Theorem combine_nesting_is_irrelevant
    (h : heap) a b c combinator1 combinator2 text1 text2 text3 :
  stringify_at a h = Some text1 →
  stringify_at b h = Some text2 →
  stringify_at c h = Some text3 →
  ∃ x (h1 : heap) y (h2 : heap) x' (h1' : heap) y' (h2' : heap),
    Facade.combine a combinator1 b h = Some (x, h1)
    ∧ Facade.combine x combinator2 c h1 = Some (y, h2)
    ∧ Facade.combine b combinator2 c h = Some (x', h1')
    ∧ Facade.combine a combinator1 x' h1' = Some (y', h2')
    ∧ stringify_at y h2
        = Some (text1 +:+ " " +:+ combinator1 +:+ " " +:+ text2
                  +:+ " " +:+ combinator2 +:+ " " +:+ text3)
    ∧ stringify_at y' h2' = stringify_at y h2.
Proof.
  intros Ha Hb Hc.
  do 8 eexists.
  split; [by apply combine_Some|].
  split; [apply combine_Some; [apply stringify_at_new|by apply stringify_at_old]|].
  split; [by apply combine_Some|].
  split; [apply combine_Some; [by apply stringify_at_old|apply stringify_at_new]|].
  rewrite !stringify_at_new, !append_assoc. by split.
Qed.

Lemma combine_nesting_is_irrelevant_witness :
  let h := snd (Facade.class "c" (snd (Facade.id "b" (snd (Facade.element "a" []))))) in
  ∃ x (h1 : heap) y (h2 : heap) x' (h1' : heap) y' (h2' : heap),
    Facade.combine 0 ">" 1 h = Some (x, h1)
    ∧ Facade.combine x "+" 2 h1 = Some (y, h2)
    ∧ Facade.combine 1 "+" 2 h = Some (x', h1')
    ∧ Facade.combine 0 ">" x' h1' = Some (y', h2')
    ∧ stringify_at y h2 = Some "a > #b + .c"
    ∧ stringify_at y' h2' = stringify_at y h2.
Proof.
  apply (combine_nesting_is_irrelevant
           (snd (Facade.class "c" (snd (Facade.id "b" (snd (Facade.element "a" []))))))
           0 1 2 ">" "+" "a" "#b" ".c"); reflexivity.
Defined.

(** ** Stringification *)

Lemma concat_texts_app l1 l2 :
  concat_texts (l1 ++ l2) = concat_texts l1 +:+ concat_texts l2.
Proof.
  induction l1 as [|t l1 IH]; [done|].
  cbn [app concat_texts]. by rewrite IH, append_assoc.
Qed.

Lemma stringify_built_by m0 value0 calls this :
  built_by m0 value0 calls this →
  CssSelectorBuilder.stringify this
  = concat_texts (map (λ c, rendered c.1 c.2) ((m0, value0) :: calls)).
Proof. intros (_ & Hfr & _). by rewrite stringify_fragments, Hfr, join_history. Qed.

(** A chain in stage order on the builder a factory made: it is accepted,
    and the builder left in the store is built by the whole history. *)
Lemma invoke_valid_order (h : heap) m0 value0 calls :
  valid_order m0 (map fst calls) = true →
  ∃ (h' : heap) this,
    invoke (fst (factory m0 value0 h)) (chain calls) (snd (factory m0 value0 h))
      = Some (Normal (), h')
    ∧ h' !! fst (factory m0 value0 h) = Some this
    ∧ built_by m0 value0 calls this.
Proof.
  intros Hvalid. rewrite invoke_factory_chain. cbv zeta.
  pose proof (chain_built_by calls m0 value0 [] _ (built_by_constructor m0 value0))
    as Hchain.
  cbn [map List.last app] in Hchain. rewrite Hvalid in Hchain.
  destruct Hchain as [Hok Hb]. rewrite Hok.
  do 2 eexists. split; [reflexivity|]. split; [|exact Hb].
  rewrite factory_fresh. apply (lookup_factory_insert h m0 value0).
Qed.

(** C1.  A chain of fragment calls in stage order, made on the builder that
    a fragment factory returned, is accepted, and [stringify()] then
    returns the rendered texts of the factory call and of the chained
    calls, in call order and with nothing between them: the raw value for
    an element, [#value] for an id, [.value] for a class, [[value]] for an
    attribute, [:value] for a pseudo-class and [::value] for a
    pseudo-element.  The same text comes out of any chain that completes
    without a throw.  The two selectors of the documentation come out as
    documented. *)
Theorem stringify_concatenates_rendered_fragments :
  (∀ (h : heap) m0 value0 calls,
     valid_order m0 (map fst calls) = true →
     ∃ h' : heap,
       invoke (fst (factory m0 value0 h)) (chain calls) (snd (factory m0 value0 h))
         = Some (Normal (), h')
       ∧ stringify_at (fst (factory m0 value0 h)) h'
           = Some (concat_texts (map (λ c, rendered c.1 c.2) ((m0, value0) :: calls))))
  ∧ (∀ (h : heap) m0 value0 calls (h' : heap),
       invoke (fst (factory m0 value0 h)) (chain calls) (snd (factory m0 value0 h))
         = Some (Normal (), h') →
       stringify_at (fst (factory m0 value0 h)) h'
         = Some (concat_texts (map (λ c, rendered c.1 c.2) ((m0, value0) :: calls))))
  ∧ (let href := "href$=" +:+ dquote +:+ ".png" +:+ dquote in
     let a := fst (Facade.element "a" []) in
     let r := invoke a (chain [(MAttr, href); (MPseudoClass, "focus")])
                (snd (Facade.element "a" [])) in
     fst <$> r = Some (Normal ()) ∧
     (snd <$> r) ≫= stringify_at a = Some ("a[" +:+ href +:+ "]:focus"))
  ∧ (let a := fst (Facade.id "main" []) in
     let r := invoke a (chain [(MClass, "container"); (MClass, "editable")])
                (snd (Facade.id "main" [])) in
     fst <$> r = Some (Normal ()) ∧
     (snd <$> r) ≫= stringify_at a = Some "#main.container.editable").
Proof.
  split; [|split; [|split; split; vm_compute; reflexivity]].
  - intros h m0 value0 calls Hvalid.
    destruct (invoke_valid_order h m0 value0 calls Hvalid)
      as (h' & this & Hrun & Hthis & Hb).
    exists h'. split; [exact Hrun|].
    unfold stringify_at. rewrite Hthis. cbn [fmap option_fmap option_map].
    by rewrite (stringify_built_by _ _ _ _ Hb).
  - intros h m0 value0 calls h' (this & Hthis & Hok & ->)%invoke_inv.
    rewrite factory_lookup in Hthis. injection Hthis as <-.
    unfold stringify_at.
    rewrite factory_fresh, (lookup_factory_insert h m0 value0).
    cbn [fmap option_fmap option_map]. f_equal.
    rewrite stringify_chain by done.
    cbn [map concat_texts fst snd]. f_equal.
    rewrite constructor_fragment. unfold CssSelectorBuilder.stringify. cbn.
    apply append_empty_r.
Qed.

Lemma stringify_concatenates_rendered_fragments_witness :
  let a := fst (factory MElement "div" []) in
  let calls := [(MId, "main"); (MClass, "container"); (MClass, "wide");
                (MAttr, "lang"); (MPseudoClass, "hover"); (MPseudoElement, "before")] in
  ∃ h' : heap,
    invoke a (chain calls) (snd (factory MElement "div" [])) = Some (Normal (), h')
    ∧ stringify_at a h' = Some "div#main.container.wide[lang]:hover::before".
Proof.
  apply (proj1 stringify_concatenates_rendered_fragments [] MElement "div"
           [(MId, "main"); (MClass, "container"); (MClass, "wide");
            (MAttr, "lang"); (MPseudoClass, "hover"); (MPseudoElement, "before")]).
  reflexivity.
Defined.

(** ** Repeats of one method *)

Lemma valid_order_app prev ms1 ms2 :
  valid_order prev (ms1 ++ ms2)
  = valid_order prev ms1 && valid_order (List.last ms1 prev) ms2.
Proof.
  revert prev. induction ms1 as [|m1 rest IH]; intros prev; [done|].
  cbn [app valid_order]. by rewrite IH, last_cons, andb_assoc.
Qed.

Lemma valid_order_repeat prev m (values : list string) :
  singleton m = false →
  valid_next prev m = true →
  valid_order prev (map fst (map (pair m) values)) = true.
Proof.
  intros Hs. revert prev. induction values as [|value values IH]; intros prev Hnext; [done|].
  cbn [map fst valid_order]. rewrite Hnext, andb_true_l.
  apply IH, valid_next_spec. by right.
Qed.

Lemma map_rendered_repeat m (values : list string) :
  map (λ c : method * string, rendered c.1 c.2) (map (pair m) values)
  = map (rendered m) values.
Proof. by rewrite map_map. Qed.

Lemma map_fragment_repeat m (values : list string) :
  map (λ c : method * string, fragment_of c.1 c.2) (map (pair m) values)
  = map (fragment_of m) values.
Proof. by rewrite map_map. Qed.

(** C7.  The methods [class], [attr] and [pseudoClass] can be repeated.
    After an accepted call of one of them, on any builder, the same method
    can be called again any number of times, with any values: no call
    throws, and the fragments of the builder are those it had, followed by
    one fragment per call, in call order; for [class] and [attr] this is
    all that [selectors] receives.  On the builder that a factory returned
    and a chain in stage order extended, a first call of such a method
    that is in order is accepted, and so is every repeat of it.  In
    particular the repeats are accepted right after the factory call of
    the same kind. *)
Theorem repeated_calls_accepted_in_order :
  (∀ m value0 this values,
     singleton m = false →
     fst (call m value0 this) = Normal () →
     let this1 := snd (call m value0 this) in
     let calls := map (pair m) values in
     fst (chain calls this1) = Normal ()
     ∧ fragments (snd (chain calls this1))
         = fragments this1 ++ map (fragment_of m) values
     ∧ (m ≠ MPseudoClass →
        selectors (snd (chain calls this1))
          = selectors this1 ++ map (fragment_of m) values)
     ∧ CssSelectorBuilder.stringify (snd (chain calls this1))
         = CssSelectorBuilder.stringify this1
             +:+ concat_texts (map (rendered m) values))
  ∧ (∀ (h : heap) m0 value0 calls m values,
       singleton m = false →
       valid_order m0 (map fst calls) = true →
       valid_next (List.last (map fst calls) m0) m = true →
       ∃ (h' : heap) this,
         invoke (fst (factory m0 value0 h)) (chain (calls ++ map (pair m) values))
           (snd (factory m0 value0 h)) = Some (Normal (), h')
         ∧ h' !! fst (factory m0 value0 h) = Some this
         ∧ fragments this
             = map (λ c, fragment_of c.1 c.2) ((m0, value0) :: calls)
                 ++ map (fragment_of m) values
         ∧ CssSelectorBuilder.stringify this
             = concat_texts (map (λ c, rendered c.1 c.2) ((m0, value0) :: calls))
                 +:+ concat_texts (map (rendered m) values))
  ∧ (∀ (h : heap) m value0 values,
       singleton m = false →
       ∃ (h' : heap) this,
         invoke (fst (factory m value0 h)) (chain (map (pair m) values))
           (snd (factory m value0 h)) = Some (Normal (), h')
         ∧ h' !! fst (factory m value0 h) = Some this
         ∧ fragments this = map (fragment_of m) (value0 :: values)
         ∧ (m ≠ MPseudoClass →
            selectors this = map (fragment_of m) (value0 :: values))
         ∧ CssSelectorBuilder.stringify this
             = concat_texts (map (rendered m) (value0 :: values))).
Proof.
  split; [|split].
  - intros m value0 this values Hs Hok this1 calls. subst calls.
    pose proof (call_repeatable_after _ _ _ Hs Hok) as Hav.
    destruct (chain_repeat m values this1 Hs Hav) as (Hchain & Hfr & Hsel).
    do 3 (split; [done|]).
    rewrite (stringify_chain _ _ Hchain). f_equal.
    by rewrite map_map.
  - intros h m0 value0 calls m values Hs Hvalid Hnext.
    destruct (invoke_valid_order h m0 value0 (calls ++ map (pair m) values))
      as (h' & this & Hrun & Hthis & Hb).
    { rewrite map_app, valid_order_app, Hvalid. by apply valid_order_repeat. }
    exists h', this. do 2 (split; [done|]).
    pose proof (stringify_built_by _ _ _ _ Hb) as Htext.
    destruct Hb as (_ & Hfr & _).
    change ((m0, value0) :: calls ++ map (pair m) values)
      with (((m0, value0) :: calls) ++ map (pair m) values) in *.
    rewrite map_app, map_fragment_repeat in Hfr.
    rewrite map_app, map_rendered_repeat, concat_texts_app in Htext.
    by split.
  - intros h m value0 values Hs.
    rewrite invoke_factory_chain. cbv zeta.
    pose proof (constructor_fragment m (rendered m value0)) as Hseed.
    set (seed := CssSelectorBuilder.constructor
                   (Obj (Some (type_of m)) (rendered m value0))) in *.
    assert (selectors seed = [fragment_of m value0]) as Hsel0 by (by rewrite Hseed).
    assert (fragments seed = [fragment_of m value0]) as Hfr0 by (by rewrite Hseed).
    assert (CssSelectorBuilder.stringify seed = rendered m value0) as Htext0.
    { rewrite Hseed. unfold CssSelectorBuilder.stringify.
      cbn [selectors map join_empty get_value default]. apply append_empty_r. }
    destruct (chain_repeat m values seed Hs) as (Hok & Hfr & Hsel).
    { by rewrite Hseed. }
    rewrite Hok. do 2 eexists. split; [reflexivity|].
    rewrite factory_fresh. split; [apply (lookup_factory_insert h m value0)|].
    split; [by rewrite Hfr, Hfr0|].
    split; [intros Hm; by rewrite (Hsel Hm), Hsel0|].
    by rewrite (stringify_chain _ _ Hok), map_rendered_repeat, Htext0.
Qed.

Lemma repeated_calls_accepted_in_order_witness :
  (let this1 := snd (call MAttr "lang"
                       (CssSelectorBuilder.constructor (Obj (Some "element") "a"))) in
   fst (chain (map (pair MAttr) ["href"; "title"]) this1) = Normal ()
   ∧ selectors (snd (chain (map (pair MAttr) ["href"; "title"]) this1))
       = selectors this1 ++ [Obj (Some "attr") "[href]"; Obj (Some "attr") "[title]"])
  ∧ (∃ (h' : heap) this,
       invoke 0 (chain (map (pair MClass) ["b"; "c"])) (snd (factory MClass "a" []))
         = Some (Normal (), h')
       ∧ h' !! 0 = Some this
       ∧ selectors this
           = [Obj (Some "class") ".a"; Obj (Some "class") ".b"; Obj (Some "class") ".c"]
       ∧ CssSelectorBuilder.stringify this = ".a.b.c")
  ∧ (∃ (h' : heap) this,
       invoke 0 (chain ([(MId, "x")] ++ map (pair MPseudoClass) ["hover"; "focus"]))
         (snd (factory MElement "a" [])) = Some (Normal (), h')
       ∧ h' !! 0 = Some this
       ∧ CssSelectorBuilder.stringify this = "a#x:hover:focus").
Proof.
  destruct repeated_calls_accepted_in_order as (Hafter & Hordered & Hfactory).
  split; [|split].
  - destruct (Hafter MAttr "lang"
                (CssSelectorBuilder.constructor (Obj (Some "element") "a"))
                ["href"; "title"] eq_refl eq_refl) as (Hok & _ & Hsel & _).
    split; [exact Hok|]. apply Hsel. discriminate.
  - destruct (Hfactory [] MClass "a" ["b"; "c"] eq_refl)
      as (h' & this & Hrun & Hthis & _ & Hsel & Htext).
    exists h', this. split; [exact Hrun|]. split; [exact Hthis|].
    split; [apply Hsel; discriminate|exact Htext].
  - destruct (Hordered [] MElement "a" [(MId, "x")] MPseudoClass ["hover"; "focus"]
                eq_refl eq_refl eq_refl)
      as (h' & this & Hrun & Hthis & _ & Htext).
    exists h', this. split; [exact Hrun|]. split; [exact Hthis|exact Htext].
Defined.

(** ** Entries that are not fragments *)

(** The duplicate test sees fragments only. *)
Lemma holds_fragments t l : holds t l = holds t (List.filter is_fragment l).
Proof.
  unfold holds. induction l as [|x l IH]; [done|].
  destruct x as [ty v|n|str]; cbn [List.filter is_fragment find get_type strict_eq];
    [|exact IH|exact IH].
  by destruct (strict_eq ty t).
Qed.

Lemma stringify_alike this that :
  alike this that →
  CssSelectorBuilder.stringify this = CssSelectorBuilder.stringify that.
Proof. intros [Hfr _]. by rewrite !stringify_fragments, Hfr. Qed.

(** A call on two builders that are alike completes in the same way and
    leaves them alike. *)
Lemma call_alike m value this that :
  alike this that →
  fst (call m value this) = fst (call m value that)
  ∧ alike (snd (call m value this)) (snd (call m value that)).
Proof.
  intros [Hfr Hav]. pose proof (conj Hfr Hav : alike this that) as Halike.
  rewrite !call_eq.
  rewrite (holds_fragments _ (selectors this)), (holds_fragments _ (selectors that)).
  fold (fragments this) (fragments that). rewrite Hfr, Hav.
  destruct (singleton m && holds _ _); [done|].
  destruct (avalableSelectors that) as [l|]; [|done].
  destruct (includes l _); [|done].
  cbn [fst snd]. split; [done|].
  destruct this as [sel1 av1], that as [sel2 av2]. cbn [selectors] in *.
  split; [|done].
  rewrite (fragments_app sel1 _ av1), (fragments_app sel2 _ av2), !fragments_pushed.
  by rewrite Hfr.
Qed.

Lemma chain_alike calls this that :
  alike this that →
  fst (chain calls this) = fst (chain calls that)
  ∧ alike (snd (chain calls this)) (snd (chain calls that)).
Proof.
  revert this that. induction calls as [|[m value] rest IH]; intros this that Halike.
  - done.
  - rewrite !chain_cons.
    destruct (call_alike m value this that Halike) as [Hfst Hsnd].
    rewrite Hfst.
    destruct (fst (call m value that)) as [[]|e]; [by apply IH|done].
Qed.

Lemma attempt_all_alike calls this that :
  alike this that → alike (attempt_all calls this) (attempt_all calls that).
Proof.
  revert this that. induction calls as [|[m value] rest IH]; intros this that Halike.
  - done.
  - cbn [attempt_all]. apply IH. by apply call_alike.
Qed.

Lemma combine_alike selector1 combinator selector2 this :
  alike (snd (CssSelectorBuilder.combine selector1 combinator selector2 this)) this.
Proof.
  rewrite combine_eq. destruct this as [sel av]. cbn [snd selectors avalableSelectors].
  split; [|done]. rewrite (fragments_app sel _ av). apply app_nil_r.
Qed.

(** X7.  The instance method [combine], called with strings, completes and
    shows nowhere.  The builder stringifies as before, allows the same
    kinds and holds the same fragments.  Whatever fragment calls are made
    after it, chained or attempted one by one, they complete as they would
    have without it, the first throw included, and the builder they leave
    has the same fragments, allows the same kinds and stringifies the
    same. *)
Theorem instance_combine_is_invisible this selector1 combinator selector2 :
  let after := snd (CssSelectorBuilder.combine selector1 combinator selector2 this) in
  fst (CssSelectorBuilder.combine selector1 combinator selector2 this) = Normal ()
  ∧ CssSelectorBuilder.stringify after = CssSelectorBuilder.stringify this
  ∧ avalableSelectors after = avalableSelectors this
  ∧ fragments after = fragments this
  ∧ (∀ calls,
       fst (chain calls after) = fst (chain calls this)
       ∧ fragments (snd (chain calls after)) = fragments (snd (chain calls this))
       ∧ avalableSelectors (snd (chain calls after))
           = avalableSelectors (snd (chain calls this))
       ∧ CssSelectorBuilder.stringify (snd (chain calls after))
           = CssSelectorBuilder.stringify (snd (chain calls this)))
  ∧ (∀ calls,
       fragments (attempt_all calls after) = fragments (attempt_all calls this)
       ∧ avalableSelectors (attempt_all calls after)
           = avalableSelectors (attempt_all calls this)
       ∧ CssSelectorBuilder.stringify (attempt_all calls after)
           = CssSelectorBuilder.stringify (attempt_all calls this)).
Proof.
  intros after.
  pose proof (combine_alike selector1 combinator selector2 this) as Halike.
  fold after in Halike.
  split; [by rewrite combine_eq|].
  split; [by apply stringify_alike|].
  destruct Halike as [Hfr Hav]. do 2 (split; [done|]).
  pose proof (conj Hfr Hav : alike after this) as Halike.
  split; intros calls.
  - destruct (chain_alike calls after this Halike) as [Hfst Hsnd].
    split; [done|]. pose proof (stringify_alike _ _ Hsnd). by destruct Hsnd.
  - pose proof (attempt_all_alike calls after this Halike) as Hsnd.
    pose proof (stringify_alike _ _ Hsnd). by destruct Hsnd.
Qed.
